(** * server.js: the company CRUD handlers, embedded and verified

    The development follows the layers of [server.js]:

    - [Validator]: the string functions of validator.js that the route
      chains call ([trim], [escape], [isLength]);
    - [ExpressValidator]: validation chains ([body(..)], [param(..)]) run as
      middleware in front of a handler, and [validationResult], as in the
      releases of express-validator that export [body], [param] and
      [validationResult] from the package root, where the items of a chain
      run in the order they are written;
    - [MariaDB]: the connection pool of the mariadb connector and what a
      query is called with and resolves to;
    - [Company]: the [company] table and the SQL statements the handlers
      send to it;
    - [Server]: the four mutating handlers of [/api/companies], written in a
      small state-and-exception monad that mirrors [await], [try], [catch],
      [finally] and [return].
    - [Reads]: the three read handlers ([/api/items], [/api/studenttitles],
      [/api/companies]), in a monad of the same kind whose state also tells
      whether [req.db] has been assigned.

    The handlers are generic in the database behind the connection, and
    what is proved of them holds for every driver.  The table of [Company]
    is one such database, modelled from the specification since neither
    the server nor the schema is part of [server.js]; it is used only
    where a statement is about the ids of the rows or about a duplicate
    key.

    Strings are JavaScript strings restricted to code units below 256, one
    [ascii] per code unit.  Request fields are strings or absent
    ([undefined]); a JSON body that carries a number, [null] or a nested
    object in one of the fields is outside the model. *)

From Stdlib Require Import ZArith Ascii String Bool Lia.
From stdpp Require Import gmap strings list.

Local Open Scope Z_scope.

(** ** validator.js *)

Module Validator.

(** JavaScript's [\s] on code units below 256: TAB, LF, VT, FF, CR, SPACE
    and NBSP (U+00A0). *)
Definition is_space (c : ascii) : bool :=
  let n := nat_of_ascii c in
  ((9 <=? n)%nat && (n <=? 13)%nat) || (n =? 32)%nat || (n =? 160)%nat.

(** [ltrim(str)]: [str.replace(/^\s+/g, '')]. *)
Fixpoint ltrim (str : string) : string :=
  match str with
  | EmptyString => EmptyString
  | String c rest => if is_space c then ltrim rest else str
  end.

(** [rtrim(str)]: walk back from the last index while the character is
    white space, then [str.slice(0, strIndex + 1)]. *)
Fixpoint rtrim (str : string) : string :=
  match str with
  | EmptyString => EmptyString
  | String c rest =>
      match rtrim rest with
      | EmptyString => if is_space c then EmptyString else String c EmptyString
      | kept => String c kept
      end
  end.

(** [trim(str)]: [rtrim(ltrim(str))]. *)
Definition trim (str : string) : string := rtrim (ltrim str).

(** [escape(str)]: the chained [replace] calls, [&] first, then the
    double quote, the single quote, [<], [>], [/], the backslash and the
    backtick.  [&] is replaced before any replacement text brings one in,
    and no replacement text contains a character that a later [replace]
    rewrites, so the chain is a character-wise substitution. *)
Definition escape_char (c : ascii) : string :=
  match nat_of_ascii c with
  | 38%nat => "&amp;"
  | 34%nat => "&quot;"
  | 39%nat => "&#x27;"
  | 60%nat => "&lt;"
  | 62%nat => "&gt;"
  | 47%nat => "&#x2F;"
  | 92%nat => "&#x5C;"
  | 96%nat => "&#96;"
  | _ => String c EmptyString
  end.

Fixpoint escape (str : string) : string :=
  match str with
  | EmptyString => EmptyString
  | String c rest => escape_char c +:+ escape rest
  end.

(** [isLength(str, { min, max })]: [len >= min && len <= max].  Below
    code unit 256 there are no surrogate pairs and no variation
    selectors, so [len] is [str.length]. *)
Definition isLength (str : string) (min max : nat) : bool :=
  let len := String.length str in
  (min <=? len)%nat && (len <=? max)%nat.

End Validator.

(** ** express-validator *)

Module ExpressValidator.

Inductive location := body | params.

#[global] Instance location_eq_dec : EqDecision location.
Proof. solve_decision. Defined.

(** One entry of [errors.array()]:
    [{ type: 'field', value, msg, path, location }]. *)
Record validation_error := ValidationError {
  err_value : string;
  err_msg : string;
  err_path : string;
  err_location : location
}.

(** The part of the Express request the chains and handlers read. *)
Record request := Request {
  req_body : gmap string string;
  req_params : gmap string string
}.

(** The items a chain of [server.js] stacks up.  [withMessage] attaches
    its text to the validator added last, here always [isLength], so the
    message is carried by that item. *)
Inductive chain_item :=
| trim
| escape
| isLength (min max : nat) (message : string).

Record chain := Chain {
  chain_location : location;
  chain_field : string;
  chain_optional : bool;
  chain_stack : list chain_item
}.

(** [toString(value)] of express-validator: [undefined] becomes ['']. *)
Definition toString (value : option string) : string := default "" value.

Definition get_field (loc : location) (path : string) (req : request)
  : option string :=
  match loc with
  | body => req_body req !! path
  | params => req_params req !! path
  end.

Definition set_field (loc : location) (path value : string) (req : request)
  : request :=
  match loc with
  | body => {| req_body := <[path := value]> (req_body req);
               req_params := req_params req |}
  | params => {| req_body := req_body req;
                 req_params := <[path := value]> (req_params req) |}
  end.

(** One item of the stack, run on the field instance.  A sanitizer writes
    its result back to the request; a validator records an error when it
    fails and never stops the chain (no [bail()] in [server.js]). *)
Definition run_item (loc : location) (path : string) (it : chain_item)
    (st : request * list validation_error) : request * list validation_error :=
  let '(req, errors) := st in
  let value := toString (get_field loc path req) in
  match it with
  | trim => (set_field loc path (Validator.trim value) req, errors)
  | escape => (set_field loc path (Validator.escape value) req, errors)
  | isLength min max message =>
      if Validator.isLength value min max then (req, errors)
      else (req, errors ++ [ValidationError value message path loc])
  end.

(** A chain run as middleware: an [optional()] chain skips a field that
    is [undefined]; otherwise every item of the stack runs, in order. *)
Definition run_chain (c : chain) (st : request * list validation_error)
  : request * list validation_error :=
  match chain_optional c, get_field (chain_location c) (chain_field c) (fst st) with
  | true, None => st
  | _, _ =>
      foldl (fun acc it => run_item (chain_location c) (chain_field c) it acc)
            st (chain_stack c)
  end.

(** The array of chains in front of a handler: each chain is its own
    middleware and always calls [next()]. *)
Definition run_chains (cs : list chain) (req : request)
  : request * list validation_error :=
  foldl (fun acc c => run_chain c acc) (req, []) cs.

End ExpressValidator.


(** ** The mariadb connector: pool and statements *)

Module MariaDB.

(** The pool of [mariadb.createPool]: at most [connectionLimit]
    connections are handed out at a time.  [getConnection] resolves while
    one is free and rejects, after [acquireTimeout], when none is: within
    one request nothing else gives a connection back.  The limit is a
    field of the state, not a constant: [server.js] spells the option
    [connectionsLimit], so the limit in force is the connector's. *)
Record pool_state := Pool {
  connectionLimit : nat;
  active : nat
}.

Definition getConnection (p : pool_state) : option pool_state :=
  if (active p <? connectionLimit p)%nat
  then Some {| connectionLimit := connectionLimit p; active := S (active p) |}
  else None.

Definition release (p : pool_state) : pool_state :=
  {| connectionLimit := connectionLimit p; active := Nat.pred (active p) |}.

(** What [conn.query(sql, values)] is called with.  A value is a string or
    [undefined], which the connector sends as [NULL]. *)
Record query := Query {
  sql : string;
  values : list (option string)
}.

(** The fields of the connector's result object that [server.js] reads. *)
Record OkPacket := {
  affectedRows : Z;
  warningStatus : Z
}.

Inductive exn := Error (message : string).

End MariaDB.

(** ** The [company] table *)

Module Company.
Import MariaDB.

Inductive column := COMPANY_ID | COMPANY_NAME | COMPANY_CITY.

#[global] Instance column_eq_dec : EqDecision column.
Proof. solve_decision. Defined.

Record row := Row {
  company_id : string;
  company_name : string;
  company_city : string
}.

#[global] Instance row_eq_dec : EqDecision row.
Proof. solve_decision. Defined.

Definition column_name (c : column) : string :=
  match c with
  | COMPANY_ID => "COMPANY_ID"
  | COMPANY_NAME => "COMPANY_NAME"
  | COMPANY_CITY => "COMPANY_CITY"
  end.

(** [Array.prototype.join]. *)
Fixpoint join (sep : string) (parts : list string) : string :=
  match parts with
  | [] => ""
  | [p] => p
  | p :: rest => p +:+ sep +:+ join sep rest
  end.

(** The statements of [server.js], by shape.  The column list of an
    [UPDATE] is its [SET] clause, that of an [UPSERT] its
    [ON DUPLICATE KEY UPDATE] clause. *)
Inductive statement :=
| INSERT
| UPSERT (assigned : list column)
| UPDATE (assigned : list column)
| DELETE.

Definition assignments (cols : list column) : string :=
  join ", " ((fun c => column_name c +:+ " = ?") <$> cols).

Definition insert_text : string :=
  "INSERT INTO company (COMPANY_ID, COMPANY_NAME, COMPANY_CITY) VALUES (?, ?, ?)".

Definition statement_text (s : statement) : string :=
  match s with
  | INSERT => insert_text
  | UPSERT cols => insert_text +:+ " ON DUPLICATE KEY UPDATE " +:+ assignments cols
  | UPDATE cols => "UPDATE company SET " +:+ assignments cols +:+ " WHERE COMPANY_ID = ?"
  | DELETE => "DELETE FROM company WHERE COMPANY_ID = ?"
  end.

(** Every non-empty list of distinct columns. *)
Definition column_lists : list (list column) :=
  let cols := [COMPANY_ID; COMPANY_NAME; COMPANY_CITY] in
  let ext (l : list column) :=
    (fun c => l ++ [c]) <$> filter (fun c => c ∉ l) cols in
  let one := ext [] in
  let two := one ≫= ext in
  let three := two ≫= ext in
  one ++ two ++ three.

(** The server's reading of a statement text: the shape whose text it is.
    Any other text is a syntax error. *)
Definition parse (text : string) : option statement :=
  find (fun s => bool_decide (statement_text s = text))
       ([INSERT; DELETE] ++ (UPSERT <$> column_lists) ++ (UPDATE <$> column_lists)).

Definition assign (c : column) (v : string) (r : row) : row :=
  match c with
  | COMPANY_ID => {| company_id := v; company_name := company_name r; company_city := company_city r |}
  | COMPANY_NAME => {| company_id := company_id r; company_name := v; company_city := company_city r |}
  | COMPANY_CITY => {| company_id := company_id r; company_name := company_name r; company_city := v |}
  end.

(** [SET c1 = v1, c2 = v2, ...] on one row, left to right. *)
Fixpoint assign_all (cols : list column) (vs : list string) (r : row) : row :=
  match cols, vs with
  | c :: cols', v :: vs' => assign_all cols' vs' (assign c v r)
  | _, _ => r
  end.

(** Modelled from the spec: the schema of the [company] table is not in
    [server.js].  A row is keyed [id] when its [COMPANY_ID] is that very
    string.  Missing: the collation of the column and its padding, under
    which the server may take two different strings for the same key. *)
Definition matches (id : string) (r : row) : bool := bool_decide (company_id r = id).

(** The rows of the table after [SET cols = vs] on the rows keyed [id]. *)
Definition update_rows (cols : list column) (vs : list string) (id : string)
    (t : list row) : list row :=
  (fun r => if matches id r then assign_all cols vs r else r) <$> t.

(** Rows that an update of the rows keyed [id] really changed. *)
Definition changed (cols : list column) (vs : list string) (id : string)
    (t : list row) : nat :=
  length (filter (fun r => matches id r = true ∧ assign_all cols vs r ≠ r) t).

Definition matched (id : string) (t : list row) : nat :=
  length (filter (fun r => matches id r = true) t).

Definition ids (t : list row) : list string := company_id <$> t.

Definition ok (n : nat) : OkPacket + exn :=
  inl {| affectedRows := Z.of_nat n; warningStatus := 0 |}.

(** All values bound, none [NULL]. *)
Definition bound (vs : list (option string)) : option (list string) :=
  mapM id vs.

(** Modelled from the spec: the database server is not code of
    [server.js]; this is the table as sections 4.2 to 4.5 of the
    specification describe what each statement does to it, with the
    affected-row counts of the server's manual.  One statement against
    the table.  [foundRows] is the connector option
    of that name (the CLIENT_FOUND_ROWS capability): when set, an [UPDATE]
    reports the rows it matched and an upsert that leaves an existing row
    as it was reports 1; when unset, they report the rows changed, and 0.
    An upsert reports 1 for an insert and 2 for a changed row.  Inserting
    an id that exists, or moving a row onto one, is a duplicate-key
    error; an unknown text, a [NULL] value and a wrong number of values
    are errors too.  Missing: the widths of the columns (a value longer
    than its column is stored as it is, where the server would refuse or
    cut it), warnings ([warningStatus] is always 0), the collation of
    [COMPANY_ID] (see [matches]) and the order in which the server keeps
    the rows (a new row goes to the end of the list).  The table stands
    for the database only in statements that none of these can change. *)
Definition execute (foundRows : bool) (q : query) (t : list row)
  : (OkPacket + exn) * list row :=
  match parse (sql q), bound (values q) with
  | Some INSERT, Some [id; name; city] =>
      if bool_decide (id ∈ ids t)
      then (inr (Error "ER_DUP_ENTRY"), t)
      else (ok 1, t ++ [Row id name city])
  | Some (UPSERT cols), Some (id :: name :: city :: vs) =>
      if bool_decide (length vs = length cols) then
        if bool_decide (id ∈ ids t) then
          let t' := update_rows cols vs id t in
          if bool_decide (NoDup (ids t) → NoDup (ids t')) then
            match changed cols vs id t with
            | O => (ok (if foundRows then 1 else 0), t')
            | S _ => (ok 2, t')
            end
          else (inr (Error "ER_DUP_ENTRY"), t)
        else (ok 1, t ++ [Row id name city])
      else (inr (Error "ER_WRONG_ARGUMENTS"), t)
  | Some (UPDATE cols), Some vs =>
      match last vs with
      | Some id =>
          if bool_decide (length vs = S (length cols)) then
            let t' := update_rows cols vs id t in
            if bool_decide (NoDup (ids t) → NoDup (ids t')) then
              (ok (if foundRows then matched id t else changed cols vs id t), t')
            else (inr (Error "ER_DUP_ENTRY"), t)
          else (inr (Error "ER_WRONG_ARGUMENTS"), t)
      | None => (inr (Error "ER_WRONG_ARGUMENTS"), t)
      end
  | Some DELETE, Some [id] =>
      (ok (matched id t), filter (fun r => matches id r = false) t)
  | Some _, Some _ => (inr (Error "ER_WRONG_ARGUMENTS"), t)
  | Some _, None => (inr (Error "ER_BAD_NULL_ERROR"), t)
  | None, _ => (inr (Error "ER_PARSE_ERROR"), t)
  end.

End Company.


(** ** server.js *)

Module Server.
Import MariaDB ExpressValidator.

(** A response body: [{ message }], [{ error }] or [{ errors: [...] }]. *)
Inductive json :=
| message_ (message : string)
| error_ (error : string)
| errors_ (errors : list validation_error).

(** What a request does that can be seen from outside the handler, in
    the order it happens. *)
Inductive event :=
| Acquire
| Execute (q : query)
| Release
| ConsoleError (label : string)
| Respond (status : Z) (payload : json).

Section Handlers.

(** The database behind the connection: its state, and what
    [conn.query] resolves or rejects with. *)
Context {DB : Type}.
Variable conn_query : query → DB → (OkPacket + exn) * DB.

Record state := State {
  req : request;
  validation_errors : list validation_error;
  pool : pool_state;
  database : DB;
  trace : list event
}.

(** An [async] function body: it reads and updates the state and either
    completes with a value or throws. *)
Definition M (A : Type) : Type := state → (A + exn) * state.

#[local] Instance M_ret : MRet M := λ A a s, (inl a, s).
#[local] Instance M_bind : MBind M := λ A B f m s,
  match m s with
  | (inl a, s') => f a s'
  | (inr e, s') => (inr e, s')
  end.

Definition throw {A} (e : exn) : M A := λ s, (inr e, s).

Definition emit (e : event) : M unit := λ s,
  (inl (),
   {| req := req s; validation_errors := validation_errors s; pool := pool s;
      database := database s; trace := trace s ++ [e] |}).

(** [try { body } catch (err) { handler }]. *)
Definition try_catch {A} (body : M A) (handler : exn → M A) : M A := λ s,
  match body s with
  | (inl a, s') => (inl a, s')
  | (inr e, s') => handler e s'
  end.

(** [try { body } catch (err) { handler } finally { final }], where
    nothing follows the statement: a [return] inside [body] ends
    [body], and [final] runs on every way out. *)
Definition try_catch_finally (body : M unit) (handler : exn → M unit)
    (final : M unit) : M unit := λ s,
  match try_catch body handler s with
  | (inl (), s') => final s'
  | (inr e, s') =>
      match final s' with
      | (inl (), s'') => (inr e, s'')
      | (inr e', s'') => (inr e', s'')
      end
  end.

(** [pool.getConnection()]. *)
Definition pool_getConnection : M unit := λ s,
  match getConnection (pool s) with
  | Some p =>
      (inl (),
       {| req := req s; validation_errors := validation_errors s; pool := p;
          database := database s; trace := trace s ++ [Acquire] |})
  | None => (inr (Error "retrieve connection from pool timeout"), s)
  end.

Definition getDbConnection : M unit :=
  try_catch pool_getConnection
    (λ err, emit (ConsoleError "Database connection error:") ;;
            throw (Error "Internal server error")).

(** [req.db.query(sql, values)]. *)
Definition db_query (text : string) (vs : list (option string)) : M OkPacket := λ s,
  let q := Query text vs in
  let '(r, db) := conn_query q (database s) in
  (r,
   {| req := req s; validation_errors := validation_errors s; pool := pool s;
      database := db; trace := trace s ++ [Execute q] |}).

(** [req.db.release()]. *)
Definition db_release : M unit := λ s,
  (inl (),
   {| req := req s; validation_errors := validation_errors s;
      pool := release (pool s);
      database := database s; trace := trace s ++ [Release] |}).

(** [validationResult(req)], as [errors.array()]. *)
Definition validationResult : M (list validation_error) := λ s,
  (inl (validation_errors s), s).

Definition req_body_field (name : string) : M (option string) := λ s,
  (inl (req_body (req s) !! name), s).

Definition req_params_field (name : string) : M (option string) := λ s,
  (inl (req_params (req s) !! name), s).

(** [res.status(n).json(payload)]; [res.json(payload)] is status 200. *)
Definition res_status_json (status : Z) (payload : json) : M unit :=
  emit (Respond status payload).

Definition res_json (payload : json) : M unit := res_status_json 200 payload.

Definition console_error (label : string) : M unit := emit (ConsoleError label).

(** JavaScript truthiness of a string-or-[undefined]. *)
Definition truthy (v : option string) : bool :=
  match v with
  | Some (String _ _) => true
  | _ => false
  end.

Definition isEmpty {A} (l : list A) : bool :=
  match l with [] => true | _ => false end.

Definition companyId_message : string :=
  "Company ID must be between 1 and 6 characters long".
Definition companyName_message : string :=
  "Company Name must be between 1 and 25 characters".
Definition companyCity_message : string :=
  "Company City must be between 1 and 25 characters".

(** A route: the chains in front of the handler, and the handler. *)
Record route := Route {
  chains : list chain;
  handler : M unit
}.

(** [app.post('/api/companies', [...], async (req, res) => ...)] *)
Definition app_post : route := {|
  chains := [
    Chain body "companyId" false [isLength 1 6 companyId_message];
    Chain body "companyName" false [trim; isLength 1 25 companyName_message; escape];
    Chain body "companyCity" false [trim; isLength 1 25 companyCity_message; escape]
  ];
  handler :=
    getDbConnection ;;
    errors ← validationResult;
    if negb (isEmpty errors) then
      res_status_json 400 (errors_ errors)
    else
      companyId ← req_body_field "companyId";
      companyName ← req_body_field "companyName";
      companyCity ← req_body_field "companyCity";
      try_catch_finally
        (db_query
           "INSERT INTO company (COMPANY_ID, COMPANY_NAME, COMPANY_CITY) VALUES (?, ?, ?)"
           [companyId; companyName; companyCity] ;;
         res_status_json 201 (message_ "Company created successfully"))
        (λ err,
           console_error "Error creating company:" ;;
           res_status_json 500 (error_ "Internal server error"))
        db_release
|}.

(** [app.patch('/api/companies/:companyId', [...], async (req, res) => ...)] *)
Definition app_patch : route := {|
  chains := [
    Chain params "companyId" false [isLength 1 6 companyId_message];
    Chain body "companyName" true [trim; isLength 1 25 companyName_message; escape];
    Chain body "companyCity" true [trim; isLength 1 25 companyCity_message; escape]
  ];
  handler :=
    getDbConnection ;;
    errors ← validationResult;
    if negb (isEmpty errors) then
      res_status_json 400 (errors_ errors)
    else
      companyId ← req_params_field "companyId";
      companyName ← req_body_field "companyName";
      companyCity ← req_body_field "companyCity";
      if negb (truthy companyName) && negb (truthy companyCity) then
        res_status_json 400
          (error_ "At least one field (companyName or companyCity) must be provided")
      else
        try_catch_finally
          (let query := "UPDATE company SET " in
           let updateFields := [] in
           let values := [] in
           let '(updateFields, values) :=
             if truthy companyName
             then (updateFields ++ ["COMPANY_NAME = ?"], values ++ [companyName])
             else (updateFields, values) in
           let '(updateFields, values) :=
             if truthy companyCity
             then (updateFields ++ ["COMPANY_CITY = ?"], values ++ [companyCity])
             else (updateFields, values) in
           let query := query +:+ Company.join ", " updateFields +:+ " WHERE COMPANY_ID = ?" in
           let values := values ++ [companyId] in
           result ← db_query query values;
           if affectedRows result =? 0 then
             res_status_json 404 (error_ "Company not found")
           else
             res_json (message_ "Company updated successfully"))
          (λ err,
             console_error "Error updating company:" ;;
             res_status_json 500 (error_ "Internal server error"))
          db_release
|}.

(** [app.put('/api/companies/:companyId', [...], async (req, res) => ...)] *)
Definition app_put : route := {|
  chains := [
    Chain params "companyId" false [isLength 1 6 companyId_message];
    Chain body "companyName" false [trim; isLength 1 25 companyName_message; escape];
    Chain body "companyCity" false [trim; isLength 1 25 companyCity_message; escape]
  ];
  handler :=
    getDbConnection ;;
    errors ← validationResult;
    if negb (isEmpty errors) then
      res_status_json 400 (errors_ errors)
    else
      companyId ← req_params_field "companyId";
      companyName ← req_body_field "companyName";
      companyCity ← req_body_field "companyCity";
      try_catch_finally
        (result ← db_query
           "INSERT INTO company (COMPANY_ID, COMPANY_NAME, COMPANY_CITY) VALUES (?, ?, ?) ON DUPLICATE KEY UPDATE COMPANY_NAME = ?, COMPANY_CITY = ?"
           [companyId; companyName; companyCity; companyName; companyCity];
         if (affectedRows result =? 1) && (warningStatus result =? 0) then
           res_status_json 201 (message_ "Company created successfully")
         else
           res_json (message_ "Company updated successfully"))
        (λ err,
           console_error "Error updating/creating company:" ;;
           res_status_json 500 (error_ "Internal server error"))
        db_release
|}.

(** [app.delete('/api/companies/:companyId', [...], async (req, res) => ...)] *)
Definition app_delete : route := {|
  chains := [
    Chain params "companyId" false [isLength 1 6 companyId_message]
  ];
  handler :=
    getDbConnection ;;
    errors ← validationResult;
    if negb (isEmpty errors) then
      res_status_json 400 (errors_ errors)
    else
      companyId ← req_params_field "companyId";
      try_catch_finally
        (result ← db_query "DELETE FROM company WHERE COMPANY_ID = ?" [companyId];
         if affectedRows result =? 0 then
           res_status_json 404 (error_ "Company not found")
         else
           res_json (message_ "Company deleted successfully"))
        (λ err,
           console_error "Error deleting company:" ;;
           res_status_json 500 (error_ "Internal server error"))
        db_release
|}.

(** One request through a route: the chains run on the incoming
    request, then the handler runs on what they left. *)
Definition serve (r : route) (request : ExpressValidator.request)
    (p : pool_state) (db : DB) : (unit + exn) * state :=
  let '(request', errors) := run_chains (chains r) request in
  handler r {| req := request'; validation_errors := errors; pool := p;
               database := db; trace := [] |}.

(** The responses sent, in order. *)
Definition responses (tr : list event) : list (Z * json) :=
  omap (λ e, match e with Respond st b => Some (st, b) | _ => None end) tr.

(** The statements executed, in order. *)
Definition executed (tr : list event) : list query :=
  omap (λ e, match e with Execute q => Some q | _ => None end) tr.

End Handlers.

End Server.


(** ** server.js: the read endpoints *)

Module Reads.
Import MariaDB.

(** One entry of [companyList]: [{ id, name, city }]. *)
Record company := CompanyEntry {
  id : string;
  name : string;
  city : string
}.

(** A response body of a read endpoint: [{ itemList }], [{ titleList }],
    [{ companyList }] or [{ error }]. *)
Inductive payload :=
| itemList_ (itemList : list string)
| titleList_ (titleList : list string)
| companyList_ (companyList : list company)
| error_ (error : string).

Inductive event :=
| Acquire
| Execute (text : string)
| Release
| ConsoleError (label : string)
| Respond (status : Z) (body : payload).

(** [String.prototype.trim]: it strips what [\s] matches, from both ends. *)
Definition trim (str : string) : string :=
  Validator.rtrim (Validator.ltrim str).

Section Handlers.

(** The database behind the connection.  A [SELECT] resolves with its
    rows, each an object from column name to value; a column whose value
    is not a string ([NULL], a number) has no entry. *)
Context {DB : Type}.
Variable conn_query : string → DB → (list (gmap string string) + exn) * DB.

(** [req_db] tells whether [req.db] has been assigned: a fresh request has
    no such property. *)
Record state := State {
  req_db : bool;
  pool : pool_state;
  database : DB;
  trace : list event
}.

Definition M (A : Type) : Type := state → (A + exn) * state.

#[local] Instance M_ret : MRet M := λ A a s, (inl a, s).
#[local] Instance M_bind : MBind M := λ A B f m s,
  match m s with
  | (inl a, s') => f a s'
  | (inr e, s') => (inr e, s')
  end.

Definition throw {A} (e : exn) : M A := λ s, (inr e, s).

Definition emit (e : event) : M unit := λ s,
  (inl (),
   {| req_db := req_db s; pool := pool s; database := database s;
      trace := trace s ++ [e] |}).

Definition try_catch {A} (body : M A) (handler : exn → M A) : M A := λ s,
  match body s with
  | (inl a, s') => (inl a, s')
  | (inr e, s') => handler e s'
  end.

(** [try { body } catch (err) { handler } finally { final }] as the last
    statement of a function. *)
Definition try_catch_finally (body : M unit) (handler : exn → M unit)
    (final : M unit) : M unit := λ s,
  match try_catch body handler s with
  | (inl (), s') => final s'
  | (inr e, s') =>
      match final s' with
      | (inl (), s'') => (inr e, s'')
      | (inr e', s'') => (inr e', s'')
      end
  end.

Definition pool_getConnection : M unit := λ s,
  match getConnection (pool s) with
  | Some p =>
      (inl (),
       {| req_db := req_db s; pool := p; database := database s;
          trace := trace s ++ [Acquire] |})
  | None => (inr (Error "retrieve connection from pool timeout"), s)
  end.

Definition getDbConnection : M unit :=
  try_catch pool_getConnection
    (λ err, emit (ConsoleError "Database connection error:") ;;
            throw (Error "Internal server error")).

Definition set_req_db : M unit := λ s,
  (inl (),
   {| req_db := true; pool := pool s; database := database s;
      trace := trace s |}).

(** [req.db = await getDbConnection()]: the assignment happens only when
    the call returned. *)
Definition assign_req_db : M unit :=
  getDbConnection ;; set_req_db.

(** Reading a property of [req.db] while it is [undefined] is a
    [TypeError]. *)
Definition undefined_req_db (property : string) : exn :=
  Error ("Cannot read properties of undefined (reading '" +:+ property +:+ "')").

(** [req.db.query(text)]. *)
Definition db_query (text : string) : M (list (gmap string string)) := λ s,
  if req_db s then
    let '(r, db) := conn_query text (database s) in
    (r,
     {| req_db := req_db s; pool := pool s; database := db;
        trace := trace s ++ [Execute text] |})
  else (inr (undefined_req_db "query"), s).

(** [req.db.release()]. *)
Definition db_release : M unit := λ s,
  if req_db s then
    (inl (),
     {| req_db := req_db s; pool := release (pool s); database := database s;
        trace := trace s ++ [Release] |})
  else (inr (undefined_req_db "release"), s).

(** [row.COLUMN.trim()]: a [TypeError] unless the value is a string. *)
Definition column_trim (column : string) (row : gmap string string) : option string :=
  trim <$> (row !! column).

(** [rows.map(f)] where [f] may throw: the first throw ends the map. *)
Definition rows_map {A} (f : gmap string string → option A)
    (rows : list (gmap string string)) : M (list A) :=
  match mapM f rows with
  | Some l => mret l
  | None => throw (Error "Cannot read properties of null (reading 'trim')")
  end.

Definition res_status_json (status : Z) (body : payload) : M unit :=
  emit (Respond status body).

Definition res_json (body : payload) : M unit := res_status_json 200 body.

Definition console_error (label : string) : M unit := emit (ConsoleError label).

(** [app.get('/api/items', async (req, res) => ...)] *)
Definition app_get_items : M unit :=
  try_catch_finally
    (assign_req_db ;;
     rows ← db_query "SELECT ITEMNAME FROM listofitem";
     items ← rows_map (column_trim "ITEMNAME") rows;
     res_json (itemList_ items))
    (λ err,
       console_error "Error fetching items:" ;;
       res_status_json 500 (error_ "Internal server error"))
    db_release.

(** [app.get('/api/studenttitles', async (req, res) => ...)] *)
Definition app_get_studenttitles : M unit :=
  try_catch_finally
    (assign_req_db ;;
     rows ← db_query "SELECT TITLE FROM student";
     titles ← rows_map (column_trim "TITLE") rows;
     res_json (titleList_ titles))
    (λ err,
       console_error "Error fetching student titles:" ;;
       res_status_json 500 (error_ "Internal server error"))
    db_release.

(** The object a row of [company] is mapped to. *)
Definition company_of_row (row : gmap string string) : option company :=
  i ← column_trim "COMPANY_ID" row;
  n ← column_trim "COMPANY_NAME" row;
  c ← column_trim "COMPANY_CITY" row;
  Some (CompanyEntry i n c).

(** [app.get('/api/companies', async (req, res) => ...)] *)
Definition app_get_companies : M unit :=
  try_catch_finally
    (assign_req_db ;;
     rows ← db_query "SELECT COMPANY_ID, COMPANY_NAME, COMPANY_CITY FROM company";
     companies ← rows_map company_of_row rows;
     res_json (companyList_ companies))
    (λ err,
       console_error "Error fetching company details:" ;;
       res_status_json 500 (error_ "Internal server error"))
    db_release.

(** One request to a read endpoint. *)
Definition serve (h : M unit) (p : pool_state) (db : DB) : (unit + exn) * state :=
  h {| req_db := false; pool := p; database := db; trace := [] |}.

Definition responses (tr : list event) : list (Z * payload) :=
  omap (λ e, match e with Respond st b => Some (st, b) | _ => None end) tr.

End Handlers.

(** The [company] table as the read endpoints see it: the one [SELECT] it
    answers returns every row, in table order, with its three columns. *)
Definition row_object (r : Company.row) : gmap string string :=
  {[ "COMPANY_ID" := Company.company_id r;
     "COMPANY_NAME" := Company.company_name r;
     "COMPANY_CITY" := Company.company_city r ]}.

Definition select (text : string) (t : list Company.row)
  : (list (gmap string string) + exn) * list Company.row :=
  if bool_decide (text = "SELECT COMPANY_ID, COMPANY_NAME, COMPANY_CITY FROM company")
  then (inl (row_object <$> t), t)
  else (inr (Error "ER_NO_SUCH_TABLE"), t).

End Reads.

Import ExpressValidator MariaDB Company Server.

(** ** Vocabulary of the statements *)

(** The four mutating endpoints of [/api/companies]. *)
Inductive endpoint :=
| post_companies
| patch_company
| put_company
| delete_company.

Definition route_of {DB} (conn_query : query → DB → (OkPacket + exn) * DB)
    (e : endpoint) : route :=
  match e with
  | post_companies => app_post conn_query
  | patch_company => app_patch conn_query
  | put_company => app_put conn_query
  | delete_company => app_delete conn_query
  end.

(** The errors a chain reports when it alone runs on the request. *)
Definition chain_errors (c : chain) (request : ExpressValidator.request)
  : list validation_error :=
  snd (run_chain c (request, [])).

(** The field a chain checks is invalid in the request. *)
Definition fails (c : chain) (request : ExpressValidator.request) : Prop :=
  chain_errors c request ≠ [].

(** The stack of a chain, run on one field. *)
Definition run_stack (loc : location) (path : string) (stack : list chain_item)
    (st : request * list validation_error) : request * list validation_error :=
  foldl (λ acc it, run_item loc path it acc) st stack.

(** The field a chain is about. *)
Definition chain_key (c : chain) : location * string :=
  (chain_location c, chain_field c).

(** The error of the [companyId] chain for a field sent as [v]. *)
Definition id_errors (loc : location) (v : option string) : list validation_error :=
  if Validator.isLength (toString v) 1 6 then []
  else [ValidationError (toString v) companyId_message "companyId" loc].

(** The error of a [companyName] or [companyCity] chain for a field sent
    as [v]. *)
Definition text_errors (path message : string) (v : string) : list validation_error :=
  if Validator.isLength (Validator.trim v) 1 25 then []
  else [ValidationError (Validator.trim v) message path body].

(** The request passes the chains of a route. *)
Definition valid (cs : list chain) (request : ExpressValidator.request) : Prop :=
  snd (run_chains cs request) = [].

(** The pool has a connection to hand out. *)
Definition available (p : pool_state) : Prop := (active p < connectionLimit p)%nat.

(** What the [companyName] and [companyCity] chains leave in the body for a
    field that was sent as [v]. *)
Definition sanitized (v : string) : string :=
  Validator.escape (Validator.trim v).

(** The same, written back into the body. *)
Definition sanitize (path : string) (v : string) (request : ExpressValidator.request)
  : ExpressValidator.request :=
  set_field body path (sanitized v) request.

(** An optional field: sanitized when sent, left out when not. *)
Definition sanitize_sent (path : string) (request : ExpressValidator.request)
  : ExpressValidator.request :=
  match req_body request !! path with
  | Some v => sanitize path v request
  | None => request
  end.

Definition text_errors_sent (path message : string) (v : option string)
  : list validation_error :=
  match v with
  | Some v => text_errors path message v
  | None => []
  end.

(** The pool once it has handed out one more connection. *)
Definition acquired (p : pool_state) : pool_state :=
  {| connectionLimit := connectionLimit p; active := S (active p) |}.

(** The state a handler ends in: pool [p], database [db], and [tr] added to
    the trace. *)
Definition finish {DB} (s : @state DB) (p : pool_state) (db : DB) (tr : list event)
  : @state DB :=
  {| req := req s; validation_errors := validation_errors s; pool := p;
     database := db; trace := trace s ++ tr |}.

(** The statement each handler sends, read off the request the chains
    left. *)
Definition post_query (request : ExpressValidator.request) : query :=
  Query "INSERT INTO company (COMPANY_ID, COMPANY_NAME, COMPANY_CITY) VALUES (?, ?, ?)"
        [req_body request !! "companyId"; req_body request !! "companyName";
         req_body request !! "companyCity"].

Definition patch_query (request : ExpressValidator.request) : query :=
  let companyName := req_body request !! "companyName" in
  let companyCity := req_body request !! "companyCity" in
  let fields :=
    (if truthy companyName then ["COMPANY_NAME = ?"] else []) ++
    (if truthy companyCity then ["COMPANY_CITY = ?"] else []) in
  let vs :=
    (if truthy companyName then [companyName] else []) ++
    (if truthy companyCity then [companyCity] else []) ++
    [req_params request !! "companyId"] in
  Query ("UPDATE company SET " +:+ join ", " fields +:+ " WHERE COMPANY_ID = ?") vs.

Definition put_query (request : ExpressValidator.request) : query :=
  Query "INSERT INTO company (COMPANY_ID, COMPANY_NAME, COMPANY_CITY) VALUES (?, ?, ?) ON DUPLICATE KEY UPDATE COMPANY_NAME = ?, COMPANY_CITY = ?"
        [req_params request !! "companyId"; req_body request !! "companyName";
         req_body request !! "companyCity"; req_body request !! "companyName";
         req_body request !! "companyCity"].

Definition delete_query (request : ExpressValidator.request) : query :=
  Query "DELETE FROM company WHERE COMPANY_ID = ?" [req_params request !! "companyId"].

(** The statement of an endpoint. *)
Definition query_of (e : endpoint) (request : ExpressValidator.request) : query :=
  match e with
  | post_companies => post_query request
  | patch_company => patch_query request
  | put_company => put_query request
  | delete_company => delete_query request
  end.

(** Where an endpoint takes [companyId] from, and where it puts it among
    the values of its statement. *)
Definition id_location (e : endpoint) : location :=
  match e with
  | post_companies => body
  | _ => params
  end.

Definition id_param (e : endpoint) (q : query) : option (option string) :=
  match e with
  | patch_company => last (values q)
  | _ => head (values q)
  end.

(** A text field is in bounds when its trimmed length is between 1 and 25;
    a field that was not sent is in bounds only where it is optional. *)
Definition text_in_bounds (optional : bool) (v : option string) : Prop :=
  match v with
  | Some s => (1 ≤ String.length (Validator.trim s) ≤ 25)%nat
  | None => optional = true
  end.

Definition fields_in_bounds (e : endpoint) (request : ExpressValidator.request) : Prop :=
  match e with
  | post_companies | put_company =>
      text_in_bounds false (req_body request !! "companyName") ∧
      text_in_bounds false (req_body request !! "companyCity")
  | patch_company =>
      text_in_bounds true (req_body request !! "companyName") ∧
      text_in_bounds true (req_body request !! "companyCity")
  | delete_company => True
  end.

(** The tail of a trace in which the statement threw: logged, answered
    with 500, connection released. *)
Definition caught (label : string) : list event :=
  [ConsoleError label; Respond 500 (error_ "Internal server error"); Release].

(** Every response of the trace is sent before the pool or the database is
    touched: nothing is acquired and nothing executed ahead of it. *)
Definition responds_before_database (tr : list event) : Prop :=
  ∀ before st payload after,
    tr = before ++ (Respond st payload :: after) →
    (Acquire ∉ before) ∧ executed before = [].

(** The status of the one response of a request, if it sent exactly one. *)
Definition status_of (tr : list event) : option Z :=
  match responses tr with
  | [(st, _)] => Some st
  | _ => None
  end.

(** ** Vocabulary of the further properties *)

(** The characters [escape] replaces, [&] apart. *)
Definition is_markup (c : ascii) : bool :=
  match nat_of_ascii c with
  | 34%nat | 39%nat | 60%nat | 62%nat | 47%nat | 92%nat | 96%nat => true
  | _ => false
  end.

Fixpoint string_forall (P : ascii → bool) (s : string) : bool :=
  match s with
  | EmptyString => true
  | String c rest => P c && string_forall P rest
  end.

(** No double or single quote, [<], [>], [/], backslash or backtick. *)
Definition markup_free (s : string) : Prop :=
  string_forall (λ c, negb (is_markup c)) s = true.

(** The first and the last character of a string, if any, are not white
    space. *)
Definition starts_clean (s : string) : bool :=
  match s with
  | EmptyString => true
  | String c _ => negb (Validator.is_space c)
  end.

Fixpoint ends_clean (s : string) : bool :=
  match s with
  | EmptyString => true
  | String c EmptyString => negb (Validator.is_space c)
  | String _ rest => ends_clean rest
  end.

(** The values of a statement that come from [companyName] and
    [companyCity]: all but the id. *)
Definition text_params (e : endpoint) (q : query) : list (option string) :=
  match e with
  | post_companies | put_company => tail (values q)
  | patch_company => removelast (values q)
  | delete_company => []
  end.

(** The statement texts of the four mutating handlers. *)
Definition statement_texts : list string :=
  [ "INSERT INTO company (COMPANY_ID, COMPANY_NAME, COMPANY_CITY) VALUES (?, ?, ?)";
    "UPDATE company SET COMPANY_NAME = ? WHERE COMPANY_ID = ?";
    "UPDATE company SET COMPANY_CITY = ? WHERE COMPANY_ID = ?";
    "UPDATE company SET COMPANY_NAME = ?, COMPANY_CITY = ? WHERE COMPANY_ID = ?";
    "INSERT INTO company (COMPANY_ID, COMPANY_NAME, COMPANY_CITY) VALUES (?, ?, ?) ON DUPLICATE KEY UPDATE COMPANY_NAME = ?, COMPANY_CITY = ?";
    "DELETE FROM company WHERE COMPANY_ID = ?" ].

(** The number of [?] in a statement text. *)
Fixpoint placeholders (text : string) : nat :=
  match text with
  | EmptyString => 0
  | String c rest =>
      (if (nat_of_ascii c =? 63)%nat then 1 else 0) + placeholders rest
  end.

(** The statuses each handler can answer with. *)
Definition statuses (e : endpoint) : list Z :=
  match e with
  | post_companies => [201; 400; 500]
  | patch_company => [200; 400; 404; 500]
  | put_company => [200; 201; 400; 500]
  | delete_company => [200; 400; 404; 500]
  end.

(** What each handler logs when its statement throws, and what it answers
    when the statement resolves. *)
Definition error_label (e : endpoint) : string :=
  match e with
  | post_companies => "Error creating company:"
  | patch_company => "Error updating company:"
  | put_company => "Error updating/creating company:"
  | delete_company => "Error deleting company:"
  end.

Definition answer (e : endpoint) (result : OkPacket) : Z * json :=
  match e with
  | post_companies => (201, message_ "Company created successfully")
  | patch_company =>
      if affectedRows result =? 0 then (404, error_ "Company not found")
      else (200, message_ "Company updated successfully")
  | put_company =>
      if (affectedRows result =? 1) && (warningStatus result =? 0)
      then (201, message_ "Company created successfully")
      else (200, message_ "Company updated successfully")
  | delete_company =>
      if affectedRows result =? 0 then (404, error_ "Company not found")
      else (200, message_ "Company deleted successfully")
  end.

(** The request reaches the statement: it is valid and, for PATCH, has a
    field to set. *)
Definition reaches_statement {DB} (conn_query : query → DB → (OkPacket + exn) * DB)
    (e : endpoint) (request : ExpressValidator.request) : Prop :=
  valid (chains (route_of conn_query e)) request ∧
  (e = patch_company →
   is_Some (req_body request !! "companyName") ∨
   is_Some (req_body request !! "companyCity")).

(** Requests served one after the other on the same pool and database. *)
Fixpoint serve_all {DB} (r : route) (requests : list ExpressValidator.request)
    (p : pool_state) (db : DB) : pool_state * DB :=
  match requests with
  | [] => (p, db)
  | request :: rest =>
      let out := snd (serve r request p db) in
      serve_all r rest (pool out) (database out)
  end.

(** The three read handlers. *)
Inductive read_endpoint :=
| get_items
| get_studenttitles
| get_companies.

Definition read_handler {DB}
    (conn_query : string → DB → (list (gmap string string) + exn) * DB)
    (e : read_endpoint) : Reads.M unit :=
  match e with
  | get_items => Reads.app_get_items conn_query
  | get_studenttitles => Reads.app_get_studenttitles conn_query
  | get_companies => Reads.app_get_companies conn_query
  end.

(** The statement of each read handler and what it logs on failure. *)
Definition read_text (e : read_endpoint) : string :=
  match e with
  | get_items => "SELECT ITEMNAME FROM listofitem"
  | get_studenttitles => "SELECT TITLE FROM student"
  | get_companies => "SELECT COMPANY_ID, COMPANY_NAME, COMPANY_CITY FROM company"
  end.

Definition read_label (e : read_endpoint) : string :=
  match e with
  | get_items => "Error fetching items:"
  | get_studenttitles => "Error fetching student titles:"
  | get_companies => "Error fetching company details:"
  end.

(** The body a read handler makes of the rows, if every row has a string
    in each column it reads. *)
Definition read_body (e : read_endpoint) (rows : list (gmap string string))
  : option Reads.payload :=
  match e with
  | get_items => Reads.itemList_ <$> mapM (Reads.column_trim "ITEMNAME") rows
  | get_studenttitles => Reads.titleList_ <$> mapM (Reads.column_trim "TITLE") rows
  | get_companies => Reads.companyList_ <$> mapM Reads.company_of_row rows
  end.

(** The columns a read handler reads of each row. *)
Definition read_columns (e : read_endpoint) : list string :=
  match e with
  | get_items => ["ITEMNAME"]
  | get_studenttitles => ["TITLE"]
  | get_companies => ["COMPANY_ID"; "COMPANY_NAME"; "COMPANY_CITY"]
  end.

(** Every row has a string in each of the columns. *)
Definition rows_complete (columns : list string) (rows : list (gmap string string))
  : Prop :=
  Forall (λ row, Forall (λ column, is_Some (row !! column)) columns) rows.

(** The entries of a list body, whichever list it is. *)
Definition listed (payload : Reads.payload) : option (list string) :=
  match payload with
  | Reads.itemList_ l | Reads.titleList_ l => Some l
  | _ => None
  end.

(** The entry [GET /api/companies] shows for a row of the table. *)
Definition company_entry (r : row) : Reads.company :=
  Reads.CompanyEntry (Reads.trim (company_id r)) (Reads.trim (company_name r))
    (Reads.trim (company_city r)).

(** The tail of a read in which something threw after the connection was
    there. *)
Definition read_caught (e : read_endpoint) : list Reads.event :=
  [Reads.ConsoleError (read_label e);
   Reads.Respond 500 (Reads.error_ "Internal server error"); Reads.Release].

(** ** validator.js: facts *)

Section ValidatorFacts.

Lemma escape_char_nonempty c : Validator.escape_char c ≠ "".
Proof. by destruct c as [[] [] [] [] [] [] [] []]. Qed.

Lemma escape_nonempty s : s ≠ "" → Validator.escape s ≠ "".
Proof.
  destruct s as [|c s]; [done|]. intros _. simpl.
  pose proof (escape_char_nonempty c) as Hc.
  destruct (Validator.escape_char c); [done|]. discriminate.
Qed.

Lemma isLength_min_nonempty s max : Validator.isLength s 1 max = true → s ≠ "".
Proof. by destruct s. Qed.

Lemma isLength_spec s min max :
  Validator.isLength s min max = true ↔ (min ≤ String.length s ≤ max)%nat.
Proof.
  unfold Validator.isLength. rewrite andb_true_iff, !Nat.leb_le. done.
Qed.

(** A value that passed [trim().isLength({ min: 1, max })] is truthy once
    escaped. *)
Lemma sanitized_truthy v max :
  Validator.isLength (Validator.trim v) 1 max = true →
  truthy (Some (sanitized v)) = true.
Proof.
  intros H%isLength_min_nonempty%escape_nonempty. unfold sanitized.
  by destruct (Validator.escape _).
Qed.

End ValidatorFacts.

(** ** express-validator: facts *)

Section ChainFacts.

Implicit Types (req : request) (errs : list validation_error)
  (loc : location) (path : string) (it : chain_item) (c : chain).

Lemma get_set_field loc path v req :
  get_field loc path (set_field loc path v req) = Some v.
Proof. destruct loc; simpl; apply lookup_insert_eq. Qed.

Lemma get_set_field_ne loc path loc' path' v req :
  (loc', path') ≠ (loc, path) →
  get_field loc' path' (set_field loc path v req) = get_field loc' path' req.
Proof.
  intros Hne. destruct loc, loc'; simpl; try done;
    apply lookup_insert_ne; congruence.
Qed.

Lemma set_set_field loc path v w req :
  set_field loc path w (set_field loc path v req) = set_field loc path w req.
Proof. destruct loc; simpl; f_equal; apply insert_insert_eq. Qed.

Lemma run_stack_cons loc path it stack st :
  run_stack loc path (it :: stack) st = run_stack loc path stack (run_item loc path it st).
Proof. done. Qed.

Lemma run_chain_unfold c st :
  run_chain c st =
  match chain_optional c, get_field (chain_location c) (chain_field c) (fst st) with
  | true, None => st
  | _, _ => run_stack (chain_location c) (chain_field c) (chain_stack c) st
  end.
Proof. done. Qed.

(** Errors only ever grow at the end. *)
Lemma run_item_errors_app loc path it req errs :
  run_item loc path it (req, errs) =
  (fst (run_item loc path it (req, [])), errs ++ snd (run_item loc path it (req, []))).
Proof.
  destruct it; simpl; rewrite ?app_nil_r; try done.
  by destruct (Validator.isLength _ _ _); simpl; rewrite ?app_nil_r.
Qed.

Lemma run_stack_errors_app loc path stack req errs :
  run_stack loc path stack (req, errs) =
  (fst (run_stack loc path stack (req, [])),
   errs ++ snd (run_stack loc path stack (req, []))).
Proof.
  revert req errs. induction stack as [|it stack IH]; intros req errs.
  { simpl. by rewrite app_nil_r. }
  rewrite !run_stack_cons, (run_item_errors_app _ _ _ req errs).
  destruct (run_item loc path it (req, [])) as [req1 e1] eqn:E; simpl.
  rewrite (IH req1 (errs ++ e1)), (IH req1 e1). simpl. by rewrite app_assoc.
Qed.

Lemma run_chain_errors_app c req errs :
  run_chain c (req, errs) =
  (fst (run_chain c (req, [])), errs ++ chain_errors c req).
Proof.
  unfold chain_errors. rewrite !run_chain_unfold. simpl.
  destruct (chain_optional c), (get_field (chain_location c) (chain_field c) req);
    simpl; rewrite ?app_nil_r; try done; apply run_stack_errors_app.
Qed.

(** A chain leaves every other field of the request alone. *)
Lemma run_item_frame loc path it loc' path' req errs :
  (loc', path') ≠ (loc, path) →
  get_field loc' path' (fst (run_item loc path it (req, errs))) =
  get_field loc' path' req.
Proof.
  intros Hne. destruct it; simpl; try by apply get_set_field_ne.
  by destruct (Validator.isLength _ _ _).
Qed.

Lemma run_stack_frame loc path stack loc' path' req errs :
  (loc', path') ≠ (loc, path) →
  get_field loc' path' (fst (run_stack loc path stack (req, errs))) =
  get_field loc' path' req.
Proof.
  intros Hne. revert req errs.
  induction stack as [|it stack IH]; intros req errs; [done|].
  rewrite run_stack_cons.
  pose proof (run_item_frame loc path it loc' path' req errs Hne) as Hf.
  destruct (run_item loc path it (req, errs)) as [req1 e1].
  by rewrite IH.
Qed.

Lemma run_chain_frame c loc' path' req errs :
  (loc', path') ≠ (chain_location c, chain_field c) →
  get_field loc' path' (fst (run_chain c (req, errs))) = get_field loc' path' req.
Proof.
  intros Hne. rewrite run_chain_unfold; simpl.
  destruct (chain_optional c), (get_field (chain_location c) (chain_field c) req);
    simpl; try done;
    by apply run_stack_frame.
Qed.

(** What a chain reports depends on its own field only. *)
Lemma run_item_local loc path it req1 req2 :
  get_field loc path req1 = get_field loc path req2 →
  snd (run_item loc path it (req1, [])) = snd (run_item loc path it (req2, [])) ∧
  get_field loc path (fst (run_item loc path it (req1, []))) =
  get_field loc path (fst (run_item loc path it (req2, []))).
Proof.
  intros Heq. destruct it; simpl; rewrite ?get_set_field, Heq; try done.
  by destruct (Validator.isLength _ _ _).
Qed.

Lemma run_stack_local loc path stack req1 req2 :
  get_field loc path req1 = get_field loc path req2 →
  snd (run_stack loc path stack (req1, [])) =
  snd (run_stack loc path stack (req2, [])).
Proof.
  revert req1 req2. induction stack as [|it stack IH]; intros req1 req2 Heq; [done|].
  rewrite !run_stack_cons.
  destruct (run_item_local loc path it req1 req2 Heq) as [He Hf].
  destruct (run_item loc path it (req1, [])) as [r1 e1].
  destruct (run_item loc path it (req2, [])) as [r2 e2]. simpl in *. subst e2.
  rewrite (run_stack_errors_app _ _ _ r1), (run_stack_errors_app _ _ _ r2). simpl.
  f_equal. by apply IH.
Qed.

Lemma chain_errors_local c req1 req2 :
  get_field (chain_location c) (chain_field c) req1 =
  get_field (chain_location c) (chain_field c) req2 →
  chain_errors c req1 = chain_errors c req2.
Proof.
  intros Heq. unfold chain_errors. rewrite !run_chain_unfold; simpl.
  pose proof (run_stack_local _ _ (chain_stack c) _ _ Heq) as Hst.
  rewrite Heq.
  by destruct (chain_optional c), (get_field (chain_location c) (chain_field c) req2).
Qed.

(** Chains over distinct fields report what each reports on its own. *)
Lemma run_chains_errors_gen cs req req' errs :
  NoDup (chain_key <$> cs) →
  (∀ c, c ∈ cs →
     get_field (chain_location c) (chain_field c) req' =
     get_field (chain_location c) (chain_field c) req) →
  snd (foldl (λ acc c, run_chain c acc) (req', errs) cs) =
  errs ++ concat ((λ c, chain_errors c req) <$> cs).
Proof.
  revert req' errs. induction cs as [|c cs IH]; intros req' errs Hnd Hsame; simpl.
  { by rewrite app_nil_r. }
  apply NoDup_cons in Hnd as [Hc Hnd].
  rewrite (run_chain_errors_app c req' errs).
  rewrite IH; [|done|].
  - rewrite <- app_assoc. do 2 f_equal.
    apply chain_errors_local, Hsame. by left.
  - intros c' Hc'. rewrite run_chain_frame.
    + apply Hsame. by right.
    + intros Heq. apply Hc. apply list_elem_of_fmap. exists c'. split; [|done].
      unfold chain_key. by rewrite Heq.
Qed.

Lemma run_chains_errors cs req :
  NoDup (chain_key <$> cs) →
  snd (run_chains cs req) = concat ((λ c, chain_errors c req) <$> cs).
Proof.
  intros Hnd. unfold run_chains. by rewrite (run_chains_errors_gen cs req req []).
Qed.

(** The three chain shapes of [server.js]. *)
Lemma run_chain_id loc req errs :
  run_chain (Chain loc "companyId" false [isLength 1 6 companyId_message]) (req, errs) =
  (req, errs ++ id_errors loc (get_field loc "companyId" req)).
Proof.
  unfold run_chain, id_errors; simpl.
  destruct (Validator.isLength _ _ _); by rewrite ?app_nil_r.
Qed.

Lemma run_chain_text path message req errs :
  let v := toString (get_field body path req) in
  run_chain (Chain body path false [trim; isLength 1 25 message; escape]) (req, errs) =
  (sanitize path v req, errs ++ text_errors path message v).
Proof.
  unfold run_chain, text_errors, sanitize, sanitized; simpl.
  rewrite lookup_insert_eq; simpl.
  destruct (Validator.isLength _ _ _); simpl;
    rewrite ?app_nil_r, lookup_insert_eq; simpl; do 2 f_equal; apply insert_insert_eq.
Qed.

Lemma run_chain_text_optional path message req errs :
  run_chain (Chain body path true [trim; isLength 1 25 message; escape]) (req, errs) =
  match get_field body path req with
  | Some v => (sanitize path v req, errs ++ text_errors path message v)
  | None => (req, errs)
  end.
Proof.
  unfold run_chain, text_errors, sanitize, sanitized; simpl.
  destruct (req_body req !! path) as [v|] eqn:E; [|done]. simpl.
  rewrite lookup_insert_eq; simpl.
  destruct (Validator.isLength _ _ _); simpl;
    rewrite ?app_nil_r, lookup_insert_eq; simpl; do 2 f_equal; apply insert_insert_eq.
Qed.

End ChainFacts.

(** ** The routes: validation *)

Section RouteValidation.

Context {DB : Type}.
Variable conn_query : query → DB → (OkPacket + exn) * DB.

Implicit Types (request : ExpressValidator.request).

Lemma post_chains_run request :
  let name := toString (req_body request !! "companyName") in
  let city := toString (req_body request !! "companyCity") in
  run_chains (chains (app_post conn_query)) request =
  (sanitize "companyCity" city (sanitize "companyName" name request),
   id_errors body (req_body request !! "companyId") ++
   text_errors "companyName" companyName_message name ++
   text_errors "companyCity" companyCity_message city).
Proof.
  unfold run_chains. cbn [chains app_post foldl].
  rewrite run_chain_id, run_chain_text, run_chain_text. simpl.
  rewrite lookup_insert_ne by discriminate. by rewrite <- app_assoc.
Qed.

Lemma put_chains_run request :
  let name := toString (req_body request !! "companyName") in
  let city := toString (req_body request !! "companyCity") in
  run_chains (chains (app_put conn_query)) request =
  (sanitize "companyCity" city (sanitize "companyName" name request),
   id_errors params (req_params request !! "companyId") ++
   text_errors "companyName" companyName_message name ++
   text_errors "companyCity" companyCity_message city).
Proof.
  unfold run_chains. cbn [chains app_put foldl].
  rewrite run_chain_id, run_chain_text, run_chain_text. simpl.
  rewrite lookup_insert_ne by discriminate. by rewrite <- app_assoc.
Qed.

Lemma patch_chains_run request :
  run_chains (chains (app_patch conn_query)) request =
  (sanitize_sent "companyCity" (sanitize_sent "companyName" request),
   id_errors params (req_params request !! "companyId") ++
   text_errors_sent "companyName" companyName_message (req_body request !! "companyName") ++
   text_errors_sent "companyCity" companyCity_message (req_body request !! "companyCity")).
Proof.
  unfold run_chains. cbn [chains app_patch foldl].
  rewrite run_chain_id, run_chain_text_optional. unfold sanitize_sent. simpl.
  destruct (req_body request !! "companyName") as [name|] eqn:En;
    rewrite run_chain_text_optional; simpl;
    rewrite ?lookup_insert_ne by discriminate;
    destruct (req_body request !! "companyCity") as [city|] eqn:Ec; simpl;
    by rewrite ?app_nil_r, <- ?app_assoc.
Qed.

Lemma delete_chains_run request :
  run_chains (chains (app_delete conn_query)) request =
  (request, id_errors params (req_params request !! "companyId")).
Proof. unfold run_chains. cbn [chains app_delete foldl]. by rewrite run_chain_id. Qed.

End RouteValidation.

(** ** The handlers, path by path *)

Section HandlerPaths.

Context {DB : Type}.
Variable conn_query : query → DB → (OkPacket + exn) * DB.

Implicit Types (s : @state DB) (e : endpoint).

#[local] Arguments getConnection : simpl never.
#[local] Arguments release : simpl never.

(** Unfold a handler down to the pool, the driver and the request. *)
Ltac handler_unfold :=
  cbv [handler route_of app_post app_patch app_put app_delete
       mbind mret M_bind M_ret getDbConnection try_catch try_catch_finally
       pool_getConnection emit throw validationResult req_body_field
       req_params_field res_status_json res_json console_error db_release
       db_query].

Lemma getConnection_available p : available p → getConnection p = Some (acquired p).
Proof.
  unfold available, getConnection. intros H.
  by destruct (Nat.ltb_spec (active p) (connectionLimit p)); [|lia].
Qed.

Lemma getConnection_exhausted p : ¬ available p → getConnection p = None.
Proof.
  unfold available, getConnection. intros H.
  by destruct (Nat.ltb_spec (active p) (connectionLimit p)).
Qed.

Lemma release_acquired p : release (acquired p) = p.
Proof. by destruct p. Qed.

(** No connection to be had: the handler rejects before it looks at the
    validation result, and sends nothing. *)
Lemma handler_exhausted e s :
  ¬ available (pool s) →
  handler (route_of conn_query e) s =
  (inr (Error "Internal server error"),
   finish s (pool s) (database s) [ConsoleError "Database connection error:"]).
Proof.
  intros H%getConnection_exhausted.
  destruct e; handler_unfold; by rewrite H.
Qed.

(** Validation failed: the early [return] of the 400, with the
    connection in hand. *)
Lemma handler_invalid e s :
  validation_errors s ≠ [] →
  available (pool s) →
  handler (route_of conn_query e) s =
  (inl (),
   finish s (acquired (pool s)) (database s)
     [Acquire; Respond 400 (errors_ (validation_errors s))]).
Proof.
  intros Hne H%getConnection_available. destruct s as [rq errs p db tr]; simpl in *.
  destruct e; handler_unfold; cbn; rewrite H;
    (destruct errs; [done|]); cbn; unfold finish; cbn;
    by rewrite <- app_assoc.
Qed.

Ltac handler_run H :=
  handler_unfold; cbn; rewrite H; cbn.

Ltac handler_done :=
  unfold finish, caught; cbn; rewrite ?release_acquired, <- ?app_assoc; done.

(** Validation passed: the statement runs inside [try], and [finally]
    gives the connection back however it ends. *)
Lemma post_valid s :
  validation_errors s = [] →
  available (pool s) →
  handler (app_post conn_query) s =
  match conn_query (post_query (req s)) (database s) with
  | (inl result, db) =>
      (inl (), finish s (pool s) db
         [Acquire; Execute (post_query (req s));
          Respond 201 (message_ "Company created successfully"); Release])
  | (inr err, db) =>
      (inl (), finish s (pool s) db
         ([Acquire; Execute (post_query (req s))] ++ caught "Error creating company:"))
  end.
Proof.
  intros Hv H%getConnection_available. destruct s as [rq errs p db tr]; simpl in *.
  subst errs. handler_run H. unfold post_query.
  destruct (conn_query _ db) as [[result|err] db']; cbn; handler_done.
Qed.

Lemma put_valid s :
  validation_errors s = [] →
  available (pool s) →
  handler (app_put conn_query) s =
  match conn_query (put_query (req s)) (database s) with
  | (inl result, db) =>
      (inl (), finish s (pool s) db
         [Acquire; Execute (put_query (req s));
          (if (affectedRows result =? 1) && (warningStatus result =? 0)
           then Respond 201 (message_ "Company created successfully")
           else Respond 200 (message_ "Company updated successfully"));
          Release])
  | (inr err, db) =>
      (inl (), finish s (pool s) db
         ([Acquire; Execute (put_query (req s))] ++ caught "Error updating/creating company:"))
  end.
Proof.
  intros Hv H%getConnection_available. destruct s as [rq errs p db tr]; simpl in *.
  subst errs. handler_run H. unfold put_query.
  destruct (conn_query _ db) as [[result|err] db']; cbn; [|handler_done].
  destruct (_ && _); cbn; handler_done.
Qed.

Lemma delete_valid s :
  validation_errors s = [] →
  available (pool s) →
  handler (app_delete conn_query) s =
  match conn_query (delete_query (req s)) (database s) with
  | (inl result, db) =>
      (inl (), finish s (pool s) db
         [Acquire; Execute (delete_query (req s));
          (if affectedRows result =? 0
           then Respond 404 (error_ "Company not found")
           else Respond 200 (message_ "Company deleted successfully"));
          Release])
  | (inr err, db) =>
      (inl (), finish s (pool s) db
         ([Acquire; Execute (delete_query (req s))] ++ caught "Error deleting company:"))
  end.
Proof.
  intros Hv H%getConnection_available. destruct s as [rq errs p db tr]; simpl in *.
  subst errs. handler_run H. unfold delete_query.
  destruct (conn_query _ db) as [[result|err] db']; cbn; [|handler_done].
  destruct (_ =? _); cbn; handler_done.
Qed.

(** PATCH with nothing to set: the second early [return], again with the
    connection in hand. *)
Lemma patch_no_field s :
  validation_errors s = [] →
  available (pool s) →
  truthy (req_body (req s) !! "companyName") = false →
  truthy (req_body (req s) !! "companyCity") = false →
  handler (app_patch conn_query) s =
  (inl (), finish s (acquired (pool s)) (database s)
     [Acquire;
      Respond 400
        (error_ "At least one field (companyName or companyCity) must be provided")]).
Proof.
  intros Hv H%getConnection_available Hn Hc.
  destruct s as [rq errs p db tr]; simpl in *.
  subst errs. handler_run H. rewrite Hn, Hc. cbn. handler_done.
Qed.

Lemma patch_valid s :
  validation_errors s = [] →
  available (pool s) →
  truthy (req_body (req s) !! "companyName") = true ∨
  truthy (req_body (req s) !! "companyCity") = true →
  handler (app_patch conn_query) s =
  match conn_query (patch_query (req s)) (database s) with
  | (inl result, db) =>
      (inl (), finish s (pool s) db
         [Acquire; Execute (patch_query (req s));
          (if affectedRows result =? 0
           then Respond 404 (error_ "Company not found")
           else Respond 200 (message_ "Company updated successfully"));
          Release])
  | (inr err, db) =>
      (inl (), finish s (pool s) db
         ([Acquire; Execute (patch_query (req s))] ++ caught "Error updating company:"))
  end.
Proof.
  intros Hv H%getConnection_available Hf.
  destruct s as [rq errs p db tr]; simpl in *.
  subst errs. handler_run H. unfold patch_query.
  destruct (truthy (req_body rq !! "companyName")) eqn:Hn;
    destruct (truthy (req_body rq !! "companyCity")) eqn:Hc; cbn;
    try (by destruct Hf);
    (destruct (conn_query _ db) as [[result|err] db']; cbn; [|handler_done]);
    destruct (_ =? _); cbn; handler_done.
Qed.

End HandlerPaths.

(** ** Requests through a route *)

Section Serve.

Context {DB : Type}.
Variable conn_query : query → DB → (OkPacket + exn) * DB.

Implicit Types (e : endpoint) (request : ExpressValidator.request)
  (p : pool_state) (db : DB).

Lemma serve_unfold (r : route) request p db :
  serve r request p db =
  handler r {| req := fst (run_chains (chains r) request);
               validation_errors := snd (run_chains (chains r) request);
               pool := p; database := db; trace := [] |}.
Proof. unfold serve. by destruct (run_chains (chains r) request). Qed.

Lemma serve_invalid e request p db :
  ¬ valid (chains (route_of conn_query e)) request →
  available p →
  serve (route_of conn_query e) request p db =
  (inl (),
   {| req := fst (run_chains (chains (route_of conn_query e)) request);
      validation_errors := snd (run_chains (chains (route_of conn_query e)) request);
      pool := acquired p; database := db;
      trace := [Acquire;
                Respond 400
                  (errors_ (snd (run_chains (chains (route_of conn_query e)) request)))] |}).
Proof.
  intros Hinv Hp. rewrite serve_unfold. by rewrite handler_invalid.
Qed.

Lemma serve_exhausted e request p db :
  ¬ available p →
  serve (route_of conn_query e) request p db =
  (inr (Error "Internal server error"),
   {| req := fst (run_chains (chains (route_of conn_query e)) request);
      validation_errors := snd (run_chains (chains (route_of conn_query e)) request);
      pool := p; database := db;
      trace := [ConsoleError "Database connection error:"] |}).
Proof. intros Hp. rewrite serve_unfold. by rewrite handler_exhausted. Qed.

Lemma chains_distinct e : NoDup (chain_key <$> chains (route_of conn_query e)).
Proof. destruct e; by apply (bool_decide_unpack _). Qed.

(** Every error a chain reports names the chain's own field. *)
Lemma run_stack_paths loc path stack req errs err :
  err ∈ snd (run_stack loc path stack (req, errs)) →
  err ∈ errs ∨ (err_path err = path ∧ err_location err = loc).
Proof.
  revert req errs. induction stack as [|it stack IH]; intros req errs; [by left|].
  rewrite run_stack_cons. destruct it; simpl; try apply IH.
  destruct (Validator.isLength _ _ _); [apply IH|].
  intros [Hin|Hnew]%IH; [|by right].
  apply elem_of_app in Hin as [Hin|Hin]; [by left|].
  apply list_elem_of_singleton in Hin as ->. by right.
Qed.

Lemma chain_errors_paths (c : chain) request err :
  err ∈ chain_errors c request →
  err_path err = chain_field c ∧ err_location err = chain_location c.
Proof.
  unfold chain_errors. rewrite run_chain_unfold. simpl.
  destruct (chain_optional c), (get_field (chain_location c) (chain_field c) request);
    try (intros [Hin|Hin]%run_stack_paths; [by apply elem_of_nil in Hin|done]).
  intros Hin. by apply elem_of_nil in Hin.
Qed.

End Serve.

(** ** The request a handler sees *)

Section SanitizedRequest.

Context {DB : Type}.
Variable conn_query : query → DB → (OkPacket + exn) * DB.

Implicit Types (request : ExpressValidator.request).

Lemma app_nil_3 {A} (l1 l2 l3 : list A) :
  l1 ++ l2 ++ l3 = [] → l1 = [] ∧ l2 = [] ∧ l3 = [].
Proof. by intros [? [? ?]%app_eq_nil]%app_eq_nil. Qed.

Lemma id_errors_nil loc v :
  id_errors loc v = [] ↔ (1 ≤ String.length (toString v) ≤ 6)%nat.
Proof.
  unfold id_errors. rewrite <- isLength_spec.
  by destruct (Validator.isLength _ _ _).
Qed.

Lemma text_errors_nil path message v :
  text_errors path message v = [] ↔
  (1 ≤ String.length (Validator.trim v) ≤ 25)%nat.
Proof.
  unfold text_errors. rewrite <- isLength_spec.
  by destruct (Validator.isLength _ _ _).
Qed.

Lemma text_errors_path path message v err :
  err ∈ text_errors path message v → err_path err = path.
Proof.
  unfold text_errors. destruct (Validator.isLength _ _ _).
  - intros H. by apply elem_of_nil in H.
  - by intros ->%list_elem_of_singleton.
Qed.

Lemma id_errors_path loc v err :
  err ∈ id_errors loc v → err_path err = "companyId".
Proof.
  unfold id_errors. destruct (Validator.isLength _ _ _).
  - intros H. by apply elem_of_nil in H.
  - by intros ->%list_elem_of_singleton.
Qed.

Lemma sanitize_sent_same path request :
  req_body (sanitize_sent path request) !! path =
  sanitized <$> (req_body request !! path).
Proof.
  unfold sanitize_sent, sanitize.
  destruct (req_body request !! path) as [v|] eqn:E; simpl; [|done].
  apply lookup_insert_eq.
Qed.

Lemma sanitize_sent_other path path' request :
  path ≠ path' →
  req_body (sanitize_sent path request) !! path' = req_body request !! path'.
Proof.
  intros Hne. unfold sanitize_sent, sanitize.
  destruct (req_body request !! path) as [v|]; simpl; [|done].
  by apply lookup_insert_ne.
Qed.

Lemma sanitize_sent_params path request :
  req_params (sanitize_sent path request) = req_params request.
Proof. unfold sanitize_sent. by destruct (req_body request !! path). Qed.

(** PATCH: a field that was sent comes out sanitized, one that was not
    stays absent; the path parameter is untouched. *)
Lemma patch_request_name request :
  req_body (fst (run_chains (chains (app_patch conn_query)) request)) !! "companyName" =
  sanitized <$> (req_body request !! "companyName").
Proof.
  rewrite patch_chains_run. simpl.
  rewrite sanitize_sent_other by discriminate. apply sanitize_sent_same.
Qed.

Lemma patch_request_city request :
  req_body (fst (run_chains (chains (app_patch conn_query)) request)) !! "companyCity" =
  sanitized <$> (req_body request !! "companyCity").
Proof.
  rewrite patch_chains_run. simpl.
  rewrite sanitize_sent_same. by rewrite sanitize_sent_other by discriminate.
Qed.

Lemma patch_request_id request :
  req_params (fst (run_chains (chains (app_patch conn_query)) request)) !! "companyId" =
  req_params request !! "companyId".
Proof. rewrite patch_chains_run. simpl. by rewrite !sanitize_sent_params. Qed.

(** POST and PUT: both text fields are always written back. *)
Lemma sanitize_twice_name name city request :
  req_body (sanitize "companyCity" city (sanitize "companyName" name request))
    !! "companyName" = Some (sanitized name).
Proof.
  unfold sanitize; simpl. rewrite lookup_insert_ne by discriminate.
  apply lookup_insert_eq.
Qed.

Lemma sanitize_twice_city name city request :
  req_body (sanitize "companyCity" city (sanitize "companyName" name request))
    !! "companyCity" = Some (sanitized city).
Proof. unfold sanitize; simpl. apply lookup_insert_eq. Qed.

Lemma sanitize_twice_other name city request path :
  path ≠ "companyName" → path ≠ "companyCity" →
  req_body (sanitize "companyCity" city (sanitize "companyName" name request))
    !! path = req_body request !! path.
Proof.
  intros H1 H2. unfold sanitize; simpl. by rewrite !lookup_insert_ne.
Qed.

End SanitizedRequest.

(** ** PATCH: the statement it builds *)

Section PatchStatement.

Context {DB : Type}.
Variable conn_query : query → DB → (OkPacket + exn) * DB.

Implicit Types (request : ExpressValidator.request).

(** With a field to set, the text is an [UPDATE] whose [SET] clause
    names [COMPANY_NAME], [COMPANY_CITY] or both, and nothing else. *)
Lemma patch_query_parse request :
  truthy (req_body request !! "companyName") = true ∨
  truthy (req_body request !! "companyCity") = true →
  ∃ cols, parse (sql (patch_query request)) = Some (UPDATE cols) ∧
          (COMPANY_ID ∉ cols) ∧
          length (values (patch_query request)) = S (length cols).
Proof.
  intros Hf. unfold patch_query.
  destruct (truthy (req_body request !! "companyName")),
           (truthy (req_body request !! "companyCity")); cbn [sql values].
  - exists [COMPANY_NAME; COMPANY_CITY]. split; [by vm_compute|]. split; [|done].
    by apply (bool_decide_unpack _).
  - exists [COMPANY_NAME]. split; [by vm_compute|]. split; [|done].
    by apply (bool_decide_unpack _).
  - exists [COMPANY_CITY]. split; [by vm_compute|]. split; [|done].
    by apply (bool_decide_unpack _).
  - by destruct Hf.
Qed.

(** A valid PATCH that sent a field has that field truthy in the handler. *)
Lemma patch_valid_truthy request :
  valid (chains (app_patch conn_query)) request →
  is_Some (req_body request !! "companyName") ∨
  is_Some (req_body request !! "companyCity") →
  let request' := fst (run_chains (chains (app_patch conn_query)) request) in
  truthy (req_body request' !! "companyName") = true ∨
  truthy (req_body request' !! "companyCity") = true.
Proof.
  unfold valid. intros Hv Hf. cbv zeta.
  rewrite patch_request_name, patch_request_city.
  rewrite patch_chains_run in Hv. simpl in Hv.
  apply app_nil_3 in Hv as (_ & Hn & Hc).
  destruct Hf as [[v Ev]|[v Ev]]; [left|right]; rewrite Ev in *; simpl in *.
  - apply text_errors_nil, isLength_spec in Hn. by apply sanitized_truthy in Hn.
  - apply text_errors_nil, isLength_spec in Hc. by apply sanitized_truthy in Hc.
Qed.

(** A PATCH that sent neither field has neither in the handler. *)
Lemma patch_absent_falsy request :
  req_body request !! "companyName" = None →
  req_body request !! "companyCity" = None →
  let request' := fst (run_chains (chains (app_patch conn_query)) request) in
  truthy (req_body request' !! "companyName") = false ∧
  truthy (req_body request' !! "companyCity") = false.
Proof.
  intros Hn Hc. cbv zeta. by rewrite patch_request_name, patch_request_city, Hn, Hc.
Qed.

End PatchStatement.

(** ** Every request, by cases *)

Section ServeCases.

Context {DB : Type}.
Variable conn_query : query → DB → (OkPacket + exn) * DB.

Implicit Types (e : endpoint) (request : ExpressValidator.request)
  (p : pool_state) (db : DB).

(** A request either executes nothing and leaves the database alone, or
    it was valid, had a connection, executed the one statement of its
    endpoint, and gave the connection back. *)
Lemma serve_cases e request p db :
  let request' := fst (run_chains (chains (route_of conn_query e)) request) in
  let out := snd (serve (route_of conn_query e) request p db) in
  (executed (trace out) = [] ∧ database out = db) ∨
  (valid (chains (route_of conn_query e)) request ∧
   available p ∧
   executed (trace out) = [query_of e request'] ∧
   database out = snd (conn_query (query_of e request') db) ∧
   pool out = p ∧
   (e = patch_company →
    truthy (req_body request' !! "companyName") = true ∨
    truthy (req_body request' !! "companyCity") = true)).
Proof.
  cbv zeta.
  destruct (decide (active p < connectionLimit p)%nat) as [Hp|Hp];
    [|left; by rewrite serve_exhausted].
  destruct (snd (run_chains (chains (route_of conn_query e)) request))
    as [|err errs] eqn:E;
    [|left; rewrite serve_invalid; [done| |done]; unfold valid; by rewrite E].
  rewrite serve_unfold. destruct e; cbn [route_of] in *.
  - right. rewrite post_valid by done. cbn [req database query_of].
    by destruct (conn_query _ db) as [[result|err] db1].
  - destruct (truthy (req_body (fst (run_chains (chains (app_patch conn_query)) request))
                        !! "companyName")) eqn:Hn;
      [|destruct (truthy (req_body (fst (run_chains (chains (app_patch conn_query)) request))
                            !! "companyCity")) eqn:Hc].
    + right. rewrite patch_valid; [|done|done|by left]. cbn [req database query_of].
      destruct (conn_query _ db) as [[result|err] db1]; simpl;
        repeat split; try done; try (by left); by destruct (_ =? _).
    + right. rewrite patch_valid; [|done|done|by right]. cbn [req database query_of].
      destruct (conn_query _ db) as [[result|err] db1]; simpl;
        repeat split; try done; try (by right); by destruct (_ =? _).
    + left. by rewrite patch_no_field.
  - right. rewrite put_valid by done. cbn [req database query_of].
    destruct (conn_query _ db) as [[result|err] db1]; simpl;
      repeat split; try done; by destruct (_ && _).
  - right. rewrite delete_valid by done. cbn [req database query_of].
    destruct (conn_query _ db) as [[result|err] db1]; simpl;
      repeat split; try done; by destruct (_ =? _).
Qed.

End ServeCases.

(** ** The table under the statements *)

Section TableFacts.

Implicit Types (t : list row) (r : row) (cols : list column) (vs : list string).

Lemma assign_all_id cols vs r :
  COMPANY_ID ∉ cols → company_id (assign_all cols vs r) = company_id r.
Proof.
  revert vs r. induction cols as [|c cols IH]; intros vs r Hc; [done|].
  destruct vs as [|v vs]; [done|]. simpl.
  rewrite IH by set_solver.
  destruct c; try done. set_solver.
Qed.

Lemma ids_update_rows cols vs id t :
  COMPANY_ID ∉ cols → ids (update_rows cols vs id t) = ids t.
Proof.
  intros Hc. unfold ids, update_rows. rewrite <- list_fmap_compose.
  apply list_fmap_ext. intros i r _. simpl.
  destruct (matches id r); [by apply assign_all_id|done].
Qed.

(** An [UPDATE] that does not set [COMPANY_ID] leaves every row's id in
    place, whether it succeeds or not. *)
Lemma execute_update_ids foundRows q cols t :
  parse (sql q) = Some (UPDATE cols) →
  COMPANY_ID ∉ cols →
  ids (snd (execute foundRows q t)) = ids t.
Proof.
  intros Hparse Hc. unfold execute. rewrite Hparse.
  destruct (bound (values q)) as [vs|]; [|done].
  destruct (last vs) as [id|]; [|done].
  repeat case_bool_decide; simpl; try done. by apply ids_update_rows.
Qed.

(** An upsert that does not set [COMPANY_ID] leaves every row's id in
    place, and at most adds one row, with a new id, at the end. *)
Lemma execute_upsert_ids foundRows q cols t :
  parse (sql q) = Some (UPSERT cols) →
  COMPANY_ID ∉ cols →
  ids (snd (execute foundRows q t)) = ids t ∨
  ∃ id, (id ∉ ids t) ∧ ids (snd (execute foundRows q t)) = ids t ++ [id].
Proof.
  intros Hparse Hc. unfold execute. rewrite Hparse.
  destruct (bound (values q)) as [[|id [|name [|city vs]]]|]; try by left.
  repeat case_bool_decide; simpl; try by left.
  - destruct (changed cols vs id t); left; by apply ids_update_rows.
  - right. exists id. split; [done|]. unfold ids. by rewrite fmap_app.
Qed.

End TableFacts.

(** ** Validity, field by field *)

Section Validity.

Context {DB : Type}.
Variable conn_query : query → DB → (OkPacket + exn) * DB.

Implicit Types (e : endpoint) (request : ExpressValidator.request).

Lemma text_errors_required path message v :
  text_errors path message (toString v) = [] ↔ text_in_bounds false v.
Proof.
  rewrite text_errors_nil. destruct v as [s|]; [done|]. simpl.
  split; [|done]. vm_compute. lia.
Qed.

Lemma text_errors_optional path message v :
  text_errors_sent path message v = [] ↔ text_in_bounds true v.
Proof. destruct v as [s|]; simpl; [apply text_errors_nil|done]. Qed.

Lemma app_nil_3_iff {A} (l1 l2 l3 : list A) :
  l1 ++ l2 ++ l3 = [] ↔ l1 = [] ∧ l2 = [] ∧ l3 = [].
Proof.
  split; [apply app_nil_3|]. by intros (-> & -> & ->).
Qed.

(** A request is valid exactly when the raw id has 1 to 6 characters and
    the text fields are in bounds. *)
Lemma valid_iff e request :
  valid (chains (route_of conn_query e)) request ↔
  (1 ≤ String.length (toString (get_field (id_location e) "companyId" request)) ≤ 6)%nat ∧
  fields_in_bounds e request.
Proof.
  unfold valid. destruct e; cbn [route_of id_location fields_in_bounds get_field].
  - rewrite post_chains_run. cbn [snd].
    by rewrite app_nil_3_iff, id_errors_nil, !text_errors_required.
  - rewrite patch_chains_run. cbn [snd].
    by rewrite app_nil_3_iff, id_errors_nil, !text_errors_optional.
  - rewrite put_chains_run. cbn [snd].
    by rewrite app_nil_3_iff, id_errors_nil, !text_errors_required.
  - rewrite delete_chains_run. cbn [snd]. rewrite id_errors_nil.
    split; [by intros ?|by intros [? _]].
Qed.

End Validity.

(** ** The values a statement is sent with *)

Section StatementValues.

Context {DB : Type}.
Variable conn_query : query → DB → (OkPacket + exn) * DB.

Implicit Types (e : endpoint) (request : ExpressValidator.request).

(** Membership in a list that is written out. *)
Ltac elem_of_list :=
  cbn [app]; repeat first [apply list_elem_of_here | apply list_elem_of_further].

(** The id goes into the statement as it came in. *)
Lemma id_param_raw e request :
  id_param e (query_of e (fst (run_chains (chains (route_of conn_query e)) request))) =
  Some (get_field (id_location e) "companyId" request).
Proof.
  destruct e; cbn [route_of id_location get_field id_param query_of].
  - rewrite post_chains_run. cbn [fst]. unfold post_query. cbn [values head].
    by rewrite sanitize_twice_other by discriminate.
  - unfold patch_query. cbn [values]. rewrite patch_request_id.
    by destruct (truthy _), (truthy _).
  - by rewrite put_chains_run.
  - by rewrite delete_chains_run.
Qed.

(** A text field that was sent goes into the statement trimmed, then
    escaped. *)
Lemma text_param_sanitized e request path v :
  e ≠ delete_company →
  valid (chains (route_of conn_query e)) request →
  path ∈ ["companyName"; "companyCity"] →
  req_body request !! path = Some v →
  Some (sanitized v) ∈
    values (query_of e (fst (run_chains (chains (route_of conn_query e)) request))).
Proof.
  intros He Hv Hpath Hsent.
  apply valid_iff in Hv as [_ Hb].
  assert (path = "companyName" ∨ path = "companyCity") as Hp.
  { apply elem_of_cons in Hpath as [->|Hpath]; [by left|right].
    by apply list_elem_of_singleton in Hpath. }
  destruct e; cbn [route_of query_of fields_in_bounds] in *; try done.
  - rewrite post_chains_run. cbn [fst]. unfold post_query. cbn [values].
    rewrite sanitize_twice_name, sanitize_twice_city.
    destruct Hp as [-> | ->]; rewrite Hsent; elem_of_list.
  - unfold patch_query. cbn [values].
    rewrite patch_request_name, patch_request_city.
    destruct Hb as [Hn Hc].
    destruct Hp as [-> | ->]; rewrite Hsent in *; cbn [fmap option_fmap option_map] in *.
    + apply isLength_spec in Hn. rewrite (sanitized_truthy _ _ Hn). elem_of_list.
    + apply isLength_spec in Hc. rewrite (sanitized_truthy _ _ Hc).
      destruct (truthy _); elem_of_list.
  - rewrite put_chains_run. cbn [fst]. unfold put_query. cbn [values].
    rewrite sanitize_twice_name, sanitize_twice_city.
    destruct Hp as [-> | ->]; rewrite Hsent; elem_of_list.
Qed.

End StatementValues.

(** ** The connection, path by path *)

Section Connection.

Context {DB : Type}.
Variable conn_query : query → DB → (OkPacket + exn) * DB.

Implicit Types (e : endpoint) (request : ExpressValidator.request)
  (p : pool_state) (db : DB).

(** On the validation-failure path of every mutating endpoint the
    connection that was acquired is still out when the handler is done. *)
Lemma connection_kept_when_invalid e request p db :
  ¬ valid (chains (route_of conn_query e)) request →
  available p →
  let out := snd (serve (route_of conn_query e) request p db) in
  pool out = acquired p ∧ Release ∉ trace out.
Proof.
  intros Hinv Hp. cbv zeta. rewrite serve_invalid by done. cbn [snd pool trace].
  split; [done|]. intros Hin.
  apply elem_of_cons in Hin as [[=]|Hin].
  apply elem_of_cons in Hin as [[=]|Hin].
  by apply elem_of_nil in Hin.
Qed.

(** So is it on the no-field path of PATCH. *)
Lemma connection_kept_when_patch_has_no_field request p db :
  valid (chains (app_patch conn_query)) request →
  available p →
  req_body request !! "companyName" = None →
  req_body request !! "companyCity" = None →
  pool (snd (serve (app_patch conn_query) request p db)) = acquired p.
Proof.
  intros Hv Hp Hn Hc.
  destruct (patch_absent_falsy conn_query request Hn Hc) as [Hfn Hfc].
  by rewrite serve_unfold, patch_no_field.
Qed.

End Connection.

(** ** The claims *)

(** C1, at the input where it fails.  [POST /api/companies] with an empty
    body on an idle pool of ten: the handler takes a connection, answers
    400, and returns without releasing it; the pool is left with one
    connection out and the trace has no [Release]. *)
Theorem C1_post_invalid_connection_not_released :
  serve (app_post (execute true)) (Request ∅ ∅) (Pool 10 0) [] =
  (inl (),
   {| req := Request {[ "companyName" := ""; "companyCity" := "" ]} ∅;
      validation_errors :=
        [ValidationError "" companyId_message "companyId" body;
         ValidationError "" companyName_message "companyName" body;
         ValidationError "" companyCity_message "companyCity" body];
      pool := Pool 10 1;
      database := [];
      trace :=
        [Acquire;
         Respond 400
           (errors_
              [ValidationError "" companyId_message "companyId" body;
               ValidationError "" companyName_message "companyName" body;
               ValidationError "" companyCity_message "companyCity" body])] |}).
Proof. by vm_compute. Qed.

(** C2, as stated, fails: on [POST /api/companies] with an empty body the
    request is invalid, yet the 400 is preceded by the acquisition of a
    connection. *)
Lemma C2_counterexample :
  ¬ valid (chains (app_post (execute true))) (Request ∅ ∅) ∧
  ¬ responds_before_database
      (trace (snd (serve (app_post (execute true)) (Request ∅ ∅) (Pool 10 0) []))).
Proof.
  split; [by vm_compute|].
  intros H.
  destruct (H [Acquire] 400
              (errors_
                 [ValidationError "" companyId_message "companyId" body;
                  ValidationError "" companyName_message "companyName" body;
                  ValidationError "" companyCity_message "companyCity" body]) [])
    as [Hacq _].
  - rewrite serve_unfold. by vm_compute.
  - apply Hacq. by left.
Qed.

(** C2, amended.  On each of the four mutating endpoints a request that
    fails field validation has no statement executed and leaves the
    database as it was; but the handler acquires a connection first: with
    one available, the trace is the acquisition followed by the 400 that
    carries the validation errors, and with none available nothing is
    sent at all. *)
Theorem C2_invalid_request_executes_nothing
    {DB : Type} (conn_query : query → DB → (OkPacket + exn) * DB)
    (e : endpoint) (request : ExpressValidator.request) (p : pool_state) (db : DB) :
  ¬ valid (chains (route_of conn_query e)) request →
  let out := snd (serve (route_of conn_query e) request p db) in
  executed (trace out) = [] ∧
  database out = db ∧
  (available p →
   trace out =
   [Acquire;
    Respond 400 (errors_ (snd (run_chains (chains (route_of conn_query e)) request)))]) ∧
  (¬ available p → responses (trace out) = []).
Proof.
  intros Hinv out. subst out.
  destruct (decide (active p < connectionLimit p)%nat) as [Hp|Hp].
  - rewrite serve_invalid by done. by simpl.
  - rewrite serve_exhausted by done. by simpl.
Qed.

Lemma C2_invalid_request_executes_nothing_witness :
  let out :=
    snd (serve (route_of (execute false) delete_company)
           (Request ∅ {[ "companyId" := "C000001" ]}) (Pool 10 0)
           [Row "C00000" "TechCorp" "San Francisco"]) in
  executed (trace out) = [] ∧
  database out = [Row "C00000" "TechCorp" "San Francisco"] ∧
  (available (Pool 10 0) →
   trace out =
   [Acquire;
    Respond 400
      (errors_
         (snd (run_chains (chains (route_of (execute false) delete_company))
                 (Request ∅ {[ "companyId" := "C000001" ]}))))]) ∧
  (¬ available (Pool 10 0) → responses (trace out) = []).
Proof.
  apply (C2_invalid_request_executes_nothing (execute false) delete_company).
  by vm_compute.
Defined.

(** C3.  [PUT /api/companies/:companyId] with valid id, name and city and a
    connection to run on executes one statement; when the driver resolves
    it, the status is 201 exactly when the result has [affectedRows] 1 and
    [warningStatus] 0, and 200 in every other case. *)
Theorem C3_put_status_from_driver_result
    {DB : Type} (conn_query : query → DB → (OkPacket + exn) * DB)
    (request : ExpressValidator.request) (p : pool_state) (db : DB) :
  valid (chains (app_put conn_query)) request →
  available p →
  let out := snd (serve (app_put conn_query) request p db) in
  ∃ q, executed (trace out) = [q] ∧
       ∀ result db', conn_query q db = (inl result, db') →
         (status_of (trace out) = Some 201 ↔
          affectedRows result = 1 ∧ warningStatus result = 0) ∧
         (¬ (affectedRows result = 1 ∧ warningStatus result = 0) →
          status_of (trace out) = Some 200).
Proof.
  intros Hv Hp out. subst out. rewrite serve_unfold, put_valid by done.
  cbn [req database].
  set (q := put_query _). exists q.
  destruct (conn_query q db) as [[result|err] db1] eqn:E.
  - simpl. split.
    { by destruct (_ && _). }
    intros result' db' [= <- <-].
    destruct (Z.eqb_spec (affectedRows result) 1) as [Ha|Ha];
      destruct (Z.eqb_spec (warningStatus result) 0) as [Hw|Hw]; simpl;
      unfold status_of; simpl;
      (split;
       [split; [intros ?; first [done | by split] | intros [? ?]; done]
       |intros Hn; first [done | destruct Hn; by split]]).
  - simpl. split; [done|]. by intros result' db' [=].
Qed.

Lemma C3_put_status_from_driver_result_witness :
  let out :=
    snd (serve (app_put (execute false))
           (Request {[ "companyName" := "TechCorp"; "companyCity" := "San Francisco" ]}
                    {[ "companyId" := "C001" ]})
           (Pool 10 0) []) in
  ∃ q, executed (trace out) = [q] ∧
       ∀ result db', execute false q [] = (inl result, db') →
         (status_of (trace out) = Some 201 ↔
          affectedRows result = 1 ∧ warningStatus result = 0) ∧
         (¬ (affectedRows result = 1 ∧ warningStatus result = 0) →
          status_of (trace out) = Some 200).
Proof.
  apply (C3_put_status_from_driver_result (execute false)).
  - by vm_compute.
  - unfold available; simpl; lia.
Defined.

(** C4.  [PATCH /api/companies/:companyId] with a valid id and at least one
    valid field, and a connection to run on: the one statement executed is
    the [UPDATE] (nothing is read before it), and when it resolves with
    zero affected rows the response is the 404. *)
Theorem C4_patch_zero_rows_is_404
    {DB : Type} (conn_query : query → DB → (OkPacket + exn) * DB)
    (request : ExpressValidator.request) (p : pool_state) (db : DB) :
  valid (chains (app_patch conn_query)) request →
  is_Some (req_body request !! "companyName") ∨
  is_Some (req_body request !! "companyCity") →
  available p →
  let out := snd (serve (app_patch conn_query) request p db) in
  ∃ q cols,
    executed (trace out) = [q] ∧
    parse (sql q) = Some (UPDATE cols) ∧
    ∀ result db', conn_query q db = (inl result, db') →
      affectedRows result = 0 →
      responses (trace out) = [(404, error_ "Company not found")].
Proof.
  intros Hv Hf Hp out. subst out.
  pose proof (patch_valid_truthy conn_query request Hv Hf) as Ht. cbv zeta in Ht.
  rewrite serve_unfold, patch_valid by done. cbn [req database].
  destruct (patch_query_parse _ Ht) as (cols & Hparse & _).
  set (q := patch_query _) in *. exists q, cols.
  destruct (conn_query q db) as [[result|err] db1] eqn:E; simpl.
  - split; [by destruct (_ =? _)|]. split; [done|].
    intros result' db' [= <- <-] Hz. by rewrite Hz.
  - split; [done|]. split; [done|]. by intros result' db' [=].
Qed.

Lemma C4_patch_zero_rows_is_404_witness :
  let out :=
    snd (serve (app_patch (execute true))
           (Request {[ "companyCity" := "Charlotte" ]} {[ "companyId" := "C404" ]})
           (Pool 10 0) [Row "C001" "TechCorp" "San Francisco"]) in
  ∃ q cols,
    executed (trace out) = [q] ∧
    parse (sql q) = Some (UPDATE cols) ∧
    ∀ result db',
      execute true q [Row "C001" "TechCorp" "San Francisco"] = (inl result, db') →
      affectedRows result = 0 →
      responses (trace out) = [(404, error_ "Company not found")].
Proof.
  apply (C4_patch_zero_rows_is_404 (execute true)).
  - by vm_compute.
  - right. exists "Charlotte". by vm_compute.
  - unfold available; simpl; lia.
Defined.

(** C5, as stated, fails when the pool has no connection to hand out: the
    handler asks for one before it looks at the body, is rejected there,
    and sends nothing.  Ten such requests bring an idle pool of ten to
    that point, since each keeps its connection, and the eleventh gets no
    response. *)
Lemma C5_counterexample :
  let request := Request ∅ {[ "companyId" := "C001" ]} in
  let t := [Row "C001" "TechCorp" "San Francisco"] in
  req_body request !! "companyName" = None ∧
  req_body request !! "companyCity" = None ∧
  responses (trace (snd (serve (app_patch (execute true)) request (Pool 10 10) t))) = [] ∧
  status_of (trace (snd (serve (app_patch (execute true)) request (Pool 10 10) t))) ≠
    Some 400 ∧
  serve_all (app_patch (execute true)) (replicate 10 request) (Pool 10 0) t =
    (Pool 10 10, t).
Proof. repeat split; by vm_compute. Qed.

(** C5, amended.  [PATCH /api/companies/:companyId] with neither
    [companyName] nor [companyCity] in the body, and a connection to run
    on, answers 400, whatever the id is and whatever the table holds. *)
Theorem C5_patch_without_fields_is_400
    {DB : Type} (conn_query : query → DB → (OkPacket + exn) * DB)
    (request : ExpressValidator.request) (p : pool_state) (db : DB) :
  req_body request !! "companyName" = None →
  req_body request !! "companyCity" = None →
  available p →
  status_of (trace (snd (serve (app_patch conn_query) request p db))) = Some 400.
Proof.
  intros Hn Hc Hp.
  destruct (patch_absent_falsy conn_query request Hn Hc) as [Hfn Hfc].
  rewrite serve_unfold.
  destruct (snd (run_chains (chains (app_patch conn_query)) request)) as [|err errs] eqn:E.
  - by rewrite patch_no_field.
  - by rewrite (handler_invalid conn_query patch_company).
Qed.

Lemma C5_patch_without_fields_is_400_witness :
  status_of
    (trace (snd (serve (app_patch (execute true))
                   (Request ∅ {[ "companyId" := "C001" ]})
                   (Pool 10 0) [Row "C001" "TechCorp" "San Francisco"]))) = Some 400.
Proof.
  apply (C5_patch_without_fields_is_400 (execute true)).
  - by vm_compute.
  - by vm_compute.
  - unfold available; simpl; lia.
Defined.

(** C6, where the code goes wrong.  A valid PUT sent twice, with a
    connection to run on, sends the same upsert both times, and the second
    call answers by the result of that upsert alone: when the driver
    reports the repeat as one affected row without warning, as it does
    under found-rows counting for a row that is found and left as it was,
    the second call answers 201 with [Company created successfully],
    though it created nothing. *)
Theorem C6_repeat_reported_as_one_row_is_201
    {DB : Type} (conn_query : query → DB → (OkPacket + exn) * DB)
    (request : ExpressValidator.request) (p : pool_state) (db : DB) :
  valid (chains (app_put conn_query)) request →
  available p →
  let first := snd (serve (app_put conn_query) request p db) in
  let second :=
    snd (serve (app_put conn_query) request (pool first) (database first)) in
  ∃ q, executed (trace first) = [q] ∧
       executed (trace second) = [q] ∧
       ∀ result db', conn_query q (database first) = (inl result, db') →
         affectedRows result = 1 → warningStatus result = 0 →
         responses (trace second) =
           [(201, message_ "Company created successfully")].
Proof.
  intros Hv Hp first second. subst first second.
  set (q := put_query (fst (run_chains (chains (app_put conn_query)) request))).
  assert (∀ db0,
    let out := snd (serve (app_put conn_query) request p db0) in
    pool out = p ∧ database out = snd (conn_query q db0) ∧
    executed (trace out) = [q] ∧
    ∀ result db', conn_query q db0 = (inl result, db') →
      affectedRows result = 1 → warningStatus result = 0 →
      responses (trace out) = [(201, message_ "Company created successfully")])
    as Hserve.
  { intros db0. cbv zeta. rewrite serve_unfold, put_valid by done.
    cbn [req database]. fold q.
    destruct (conn_query q db0) as [[result|err] db1] eqn:E; simpl.
    - split; [done|]. split; [done|]. split; [by destruct (_ && _)|].
      intros result' db' [= <- <-] Ha Hw. by rewrite Ha, Hw.
    - split; [done|]. split; [done|]. split; [done|]. by intros result' db' [=]. }
  exists q.
  destruct (Hserve db) as (Hpool & Hdb & Hex & _). cbv zeta in *.
  rewrite Hpool. split; [done|].
  destruct (Hserve (database (snd (serve (app_put conn_query) request p db))))
    as (_ & _ & Hex2 & Hres).
  split; [done|]. exact Hres.
Qed.

Lemma C6_repeat_reported_as_one_row_is_201_witness :
  let found_rows := λ (_ : query) (calls : nat),
    (inl {| affectedRows := 1; warningStatus := 0 |} : OkPacket + exn, S calls) in
  let request :=
    Request {[ "companyName" := "TechCorp"; "companyCity" := "San Francisco" ]}
            {[ "companyId" := "C001" ]} in
  let first := snd (serve (app_put found_rows) request (Pool 10 0) 0%nat) in
  let second :=
    snd (serve (app_put found_rows) request (pool first) (database first)) in
  responses (trace first) = [(201, message_ "Company created successfully")] ∧
  responses (trace second) = [(201, message_ "Company created successfully")] ∧
  status_of (trace second) ≠ Some 200.
Proof.
  intros found_rows request first second.
  split; [by vm_compute|].
  assert (responses (trace second) = [(201, message_ "Company created successfully")])
    as Hsecond.
  { destruct (C6_repeat_reported_as_one_row_is_201 found_rows request (Pool 10 0) 0%nat)
      as (q & _ & _ & Hres).
    - by vm_compute.
    - unfold available; simpl; lia.
    - by apply (Hres {| affectedRows := 1; warningStatus := 0 |} 2%nat). }
  split; [exact Hsecond|].
  unfold status_of. by rewrite Hsecond.
Defined.

(** C7.  Against the [company] table, whatever the request, the pool and
    the driver's row counting: PATCH executes at most an [UPDATE] whose
    [SET] clause does not name [COMPANY_ID], and every row keeps its id;
    PUT executes at most the upsert whose duplicate-key clause sets
    [COMPANY_NAME] and [COMPANY_CITY], every row keeps its id, and at most
    one row with a new id is added. *)
Theorem C7_patch_and_put_keep_ids
    (foundRows : bool) (request : ExpressValidator.request) (p : pool_state)
    (t : list row) :
  (let out := snd (serve (app_patch (execute foundRows)) request p t) in
   ids (database out) = ids t ∧
   ∀ q, q ∈ executed (trace out) →
        ∃ cols, parse (sql q) = Some (UPDATE cols) ∧ COMPANY_ID ∉ cols) ∧
  (let out := snd (serve (app_put (execute foundRows)) request p t) in
   (ids (database out) = ids t ∨
    ∃ id, (id ∉ ids t) ∧ ids (database out) = ids t ++ [id]) ∧
   ∀ q, q ∈ executed (trace out) →
        parse (sql q) = Some (UPSERT [COMPANY_NAME; COMPANY_CITY])).
Proof.
  split; cbv zeta.
  - destruct (serve_cases (execute foundRows) patch_company request p t)
      as [[Hex Hdb]|(_ & _ & Hex & Hdb & _ & Ht)]; cbn [route_of] in *.
    + rewrite Hex, Hdb. split; [done|]. intros q Hq. by apply elem_of_nil in Hq.
    + destruct (patch_query_parse _ (Ht eq_refl)) as (cols & Hparse & Hc & _).
      rewrite Hex, Hdb. split.
      * by apply (execute_update_ids _ _ cols).
      * intros q ->%list_elem_of_singleton. by exists cols.
  - destruct (serve_cases (execute foundRows) put_company request p t)
      as [[Hex Hdb]|(_ & _ & Hex & Hdb & _)]; cbn [route_of] in *.
    + rewrite Hex, Hdb. split; [by left|]. intros q Hq. by apply elem_of_nil in Hq.
    + rewrite Hex, Hdb. split.
      * apply (execute_upsert_ids _ _ [COMPANY_NAME; COMPANY_CITY]); [by vm_compute|].
        by apply (bool_decide_unpack _).
      * intros q ->%list_elem_of_singleton. by vm_compute.
Qed.

(** C8, as stated, fails when the pool has no connection to hand out:
    [POST /api/companies] with a [companyName] of 26 characters is then
    not answered with a 400, nor with anything else, since the handler is
    rejected asking for its connection. *)
Lemma C8_counterexample :
  let request :=
    Request {[ "companyId" := "C001";
               "companyName" := "Abcdefghijklmnopqrstuvwxyz";
               "companyCity" := "San Francisco" ]} ∅ in
  String.length (Validator.trim "Abcdefghijklmnopqrstuvwxyz") = 26%nat ∧
  responses (trace (snd (serve (app_post (execute true)) request (Pool 10 10) []))) = [] ∧
  status_of (trace (snd (serve (app_post (execute true)) request (Pool 10 10) []))) ≠
    Some 400.
Proof. repeat split; by vm_compute. Qed.

(** C8, amended.  [POST /api/companies] with a [companyName] and a
    connection to run on.  A name whose trimmed length is 25 draws no
    validation error, and if the id and the city are in bounds too the
    [INSERT] is executed with the sanitized name; a name whose trimmed
    length is 26 is answered with a 400 whose error list has an entry for
    [companyName]. *)
Theorem C8_post_name_length_boundary
    {DB : Type} (conn_query : query → DB → (OkPacket + exn) * DB)
    (request : ExpressValidator.request) (p : pool_state) (db : DB) (name : string) :
  req_body request !! "companyName" = Some name →
  available p →
  let out := snd (serve (app_post conn_query) request p db) in
  (String.length (Validator.trim name) = 25%nat →
   (∀ err, err ∈ snd (run_chains (chains (app_post conn_query)) request) →
           err_path err ≠ "companyName") ∧
   ((1 ≤ String.length (toString (req_body request !! "companyId")) ≤ 6)%nat →
    (1 ≤ String.length (Validator.trim (toString (req_body request !! "companyCity"))) ≤ 25)%nat →
    ∃ q, executed (trace out) = [q] ∧
         values q !! 1%nat = Some (Some (sanitized name)))) ∧
  (String.length (Validator.trim name) = 26%nat →
   ∃ errs err,
     responses (trace out) = [(400, errors_ errs)] ∧
     err ∈ errs ∧ err_path err = "companyName").
Proof.
  intros Hname Hp out. subst out.
  pose proof (post_chains_run conn_query request) as Hrun. cbv zeta in Hrun.
  rewrite Hname in Hrun. change (toString (Some name)) with name in Hrun.
  split.
  - intros Hlen.
    assert (text_errors "companyName" companyName_message name = []) as Hnone.
    { apply text_errors_nil. lia. }
    split.
    + rewrite Hrun, Hnone. simpl. intros err [Hin|Hin]%elem_of_app.
      * by rewrite (id_errors_path _ _ _ Hin).
      * by rewrite (text_errors_path _ _ _ _ Hin).
    + intros Hid Hcity.
      apply (id_errors_nil body) in Hid. apply (text_errors_nil "companyCity" companyCity_message) in Hcity.
      rewrite serve_unfold, post_valid; [|by rewrite Hrun, Hid, Hnone, Hcity|done].
      cbn [req database]. exists (post_query (fst (run_chains (chains (app_post conn_query)) request))).
      split.
      { by destruct (conn_query _ db) as [[result|err] db1]. }
      rewrite Hrun. cbn [fst]. unfold post_query. cbn [values].
      by rewrite sanitize_twice_name.
  - intros Hlen.
    assert (text_errors "companyName" companyName_message name =
            [ValidationError (Validator.trim name) companyName_message "companyName" body])
      as Herr.
    { unfold text_errors.
      destruct (Validator.isLength _ _ _) eqn:E; [|done].
      apply isLength_spec in E. lia. }
    rewrite (serve_invalid conn_query post_companies); [| |done].
    + eexists _, _. split; [done|]. cbn [route_of]. rewrite Hrun, Herr. cbn [snd].
      split; [apply elem_of_app; right; apply list_elem_of_here|done].
    + unfold valid. cbn [route_of]. rewrite Hrun, Herr. cbn [snd].
      intros [_ [[=] _]%app_eq_nil]%app_eq_nil.
Qed.

Lemma C8_post_name_length_boundary_witness :
  let accepted :=
    Request {[ "companyId" := "C001";
               "companyName" := "  Abcdefghijklmnopqrstuvwxy  ";
               "companyCity" := "San Francisco" ]} ∅ in
  let rejected :=
    Request {[ "companyId" := "C001";
               "companyName" := "  Abcdefghijklmnopqrstuvwxyz  ";
               "companyCity" := "San Francisco" ]} ∅ in
  ((∀ err, err ∈ snd (run_chains (chains (app_post (execute true))) accepted) →
           err_path err ≠ "companyName") ∧
   ∃ q, executed (trace (snd (serve (app_post (execute true)) accepted (Pool 10 0) []))) =
          [q] ∧
        values q !! 1%nat = Some (Some "Abcdefghijklmnopqrstuvwxy")) ∧
  ∃ errs err,
    responses (trace (snd (serve (app_post (execute true)) rejected (Pool 10 0) []))) =
      [(400, errors_ errs)] ∧
    err ∈ errs ∧ err_path err = "companyName".
Proof.
  intros accepted rejected. split.
  - destruct (C8_post_name_length_boundary (execute true) accepted (Pool 10 0) []
                "  Abcdefghijklmnopqrstuvwxy  ") as [H25 _].
    + by vm_compute.
    + unfold available; simpl; lia.
    + destruct (H25 eq_refl) as [Hnone Hrun]. split; [exact Hnone|].
      apply Hrun; vm_compute; lia.
  - destruct (C8_post_name_length_boundary (execute true) rejected (Pool 10 0) []
                "  Abcdefghijklmnopqrstuvwxyz  ") as [_ H26].
    + by vm_compute.
    + unfold available; simpl; lia.
    + exact (H26 eq_refl).
Defined.

(** C9, as stated, fails when the pool has no connection to hand out:
    [POST /api/companies] with an empty body fails all three chains, yet
    the handler is rejected asking for its connection and no 400, with or
    without a list of fields, is sent. *)
Lemma C9_counterexample :
  let request := Request ∅ ∅ in
  Forall (λ c, fails c request) (chains (app_post (execute true))) ∧
  responses (trace (snd (serve (app_post (execute true)) request (Pool 10 10) []))) = [].
Proof.
  split; [|by vm_compute].
  repeat (constructor; [by vm_compute|]). constructor.
Qed.

(** C9, amended.  On each of the four mutating endpoints, a request that
    fails validation, with a connection to run on, gets one 400 response
    whose body lists, in the order of the chains, the errors of every
    chain: each failing field has its entry, whatever the other fields
    did. *)
Theorem C9_all_failing_fields_reported
    {DB : Type} (conn_query : query → DB → (OkPacket + exn) * DB)
    (e : endpoint) (request : ExpressValidator.request) (p : pool_state) (db : DB) :
  available p →
  ¬ valid (chains (route_of conn_query e)) request →
  ∃ errs,
    responses (trace (snd (serve (route_of conn_query e) request p db))) =
      [(400, errors_ errs)] ∧
    errs = concat ((λ c, chain_errors c request) <$> chains (route_of conn_query e)) ∧
    ∀ c, c ∈ chains (route_of conn_query e) → fails c request →
         ∃ err, err ∈ errs ∧ err_path err = chain_field c ∧
                err_location err = chain_location c.
Proof.
  intros Hp Hinv.
  exists (snd (run_chains (chains (route_of conn_query e)) request)).
  rewrite serve_invalid by done. split; [done|].
  pose proof (run_chains_errors _ request (chains_distinct conn_query e)) as Hall.
  split; [done|].
  intros c Hc Hfail. unfold fails in Hfail.
  destruct (chain_errors c request) as [|err rest] eqn:E; [done|].
  assert (err ∈ chain_errors c request) as Hin by (rewrite E; by left).
  exists err. split; [|by apply (chain_errors_paths c request)].
  rewrite Hall. apply list_elem_of_In, in_concat. exists (chain_errors c request).
  split; [|by apply list_elem_of_In].
  apply list_elem_of_In, list_elem_of_fmap. by exists c.
Qed.

Lemma C9_all_failing_fields_reported_witness :
  ∃ errs,
    responses (trace (snd (serve (route_of (execute true) put_company)
                             (Request {[ "companyName" := "   " ]} {[ "companyId" := "C000001" ]})
                             (Pool 10 3) []))) =
      [(400, errors_ errs)] ∧
    errs = concat ((λ c, chain_errors c
                           (Request {[ "companyName" := "   " ]} {[ "companyId" := "C000001" ]}))
                     <$> chains (route_of (execute true) put_company)) ∧
    ∀ c, c ∈ chains (route_of (execute true) put_company) →
         fails c (Request {[ "companyName" := "   " ]} {[ "companyId" := "C000001" ]}) →
         ∃ err, err ∈ errs ∧ err_path err = chain_field c ∧
                err_location err = chain_location c.
Proof.
  apply (C9_all_failing_fields_reported (execute true) put_company).
  - unfold available; simpl; lia.
  - by vm_compute.
Defined.

(** C10, as stated, fails on its last clause: a [companyName] of seven [<]
    passes the PUT chains although, trimmed and escaped, it is 28
    characters long; the length check ran before [escape]. *)
Lemma C10_counterexample :
  valid (chains (app_put (execute true)))
        (Request {[ "companyName" := "<<<<<<<"; "companyCity" := "Charlotte" ]}
                 {[ "companyId" := "C001" ]}) ∧
  String.length (sanitized "<<<<<<<") = 28%nat ∧
  ¬ (1 ≤ String.length (sanitized "<<<<<<<") ≤ 25)%nat.
Proof. split; [by vm_compute|]. split; [by vm_compute|]. vm_compute. lia. Qed.

(** C10, amended.  On each of the four mutating endpoints the request is
    valid exactly when the id, as sent, has 1 to 6 characters (of whatever
    kind) and each text field, trimmed, has 1 to 25; the statement that is
    then executed carries the id as sent, and carries each text field that
    was sent trimmed and then escaped, the escaping coming after the
    length check. *)
Theorem C10_id_raw_text_trimmed_then_escaped
    {DB : Type} (conn_query : query → DB → (OkPacket + exn) * DB)
    (e : endpoint) (request : ExpressValidator.request) (p : pool_state) (db : DB) :
  let raw := get_field (id_location e) "companyId" request in
  let out := snd (serve (route_of conn_query e) request p db) in
  (valid (chains (route_of conn_query e)) request ↔
   (1 ≤ String.length (toString raw) ≤ 6)%nat ∧ fields_in_bounds e request) ∧
  (∀ q, q ∈ executed (trace out) →
        id_param e q = Some raw ∧
        (e ≠ delete_company →
         ∀ path v, path ∈ ["companyName"; "companyCity"] →
                   req_body request !! path = Some v →
                   Some (sanitized v) ∈ values q)).
Proof.
  cbv zeta. split; [apply valid_iff|].
  intros q Hq.
  destruct (serve_cases conn_query e request p db) as [[Hex _]|(Hv & _ & Hex & _)];
    rewrite Hex in Hq; [by apply elem_of_nil in Hq|].
  apply list_elem_of_singleton in Hq as ->. split; [apply id_param_raw|].
  intros He path v Hpath Hsent.
  by apply (text_param_sanitized conn_query e request path v).
Qed.

(** An id of three spaces is valid, and is what the [DELETE] is sent with. *)
Example whitespace_id_passes :
  let request := Request ∅ {[ "companyId" := "   " ]} in
  valid (chains (app_delete (execute true))) request ∧
  executed (trace (snd (serve (app_delete (execute true)) request (Pool 10 0) []))) =
  [Query "DELETE FROM company WHERE COMPANY_ID = ?" [Some "   "]].
Proof. by vm_compute. Qed.

(** ** Further properties: what the chains let through *)

Section SanitizedText.

Implicit Types (s : string) (c : ascii).

Lemma string_length_app s1 s2 :
  String.length (s1 +:+ s2) = (String.length s1 + String.length s2)%nat.
Proof. induction s1 as [|c s1 IH]; simpl; [done|]. by rewrite IH. Qed.

Lemma string_forall_app P s1 s2 :
  string_forall P (s1 +:+ s2) = string_forall P s1 && string_forall P s2.
Proof.
  induction s1 as [|c s1 IH]; simpl; [done|]. by rewrite IH, andb_assoc.
Qed.

Lemma escape_char_markup_free c : markup_free (Validator.escape_char c).
Proof. by destruct c as [[] [] [] [] [] [] [] []]. Qed.

Lemma escape_markup_free s : markup_free (Validator.escape s).
Proof.
  unfold markup_free. induction s as [|c s IH]; [done|]. simpl.
  rewrite string_forall_app, IH, andb_true_r. apply escape_char_markup_free.
Qed.

Lemma escape_char_length c :
  (1 ≤ String.length (Validator.escape_char c) ≤ 6)%nat.
Proof. destruct c as [[] [] [] [] [] [] [] []]; vm_compute; lia. Qed.

Lemma escape_length s :
  (String.length s ≤ String.length (Validator.escape s) ≤ 6 * String.length s)%nat.
Proof.
  induction s as [|c s IH]; simpl; [lia|].
  rewrite string_length_app. pose proof (escape_char_length c). lia.
Qed.

Lemma ltrim_starts_clean s : starts_clean (Validator.ltrim s) = true.
Proof.
  induction s as [|c s IH]; [done|]. simpl.
  destruct (Validator.is_space c) eqn:E; [done|]. simpl. by rewrite E.
Qed.

Lemma ltrim_clean s : starts_clean s = true → Validator.ltrim s = s.
Proof.
  destruct s as [|c s]; [done|]. simpl. by destruct (Validator.is_space c).
Qed.

Lemma rtrim_ends_clean s : ends_clean (Validator.rtrim s) = true.
Proof.
  induction s as [|c s IH]; [done|]. simpl.
  destruct (Validator.rtrim s) as [|a kept]; [|done].
  destruct (Validator.is_space c) eqn:E; [done|]. simpl. by rewrite E.
Qed.

Lemma rtrim_clean s : ends_clean s = true → Validator.rtrim s = s.
Proof.
  induction s as [|c s IH]; [done|]. destruct s as [|a s].
  - simpl. by destruct (Validator.is_space c).
  - intros H. change (ends_clean (String a s) = true) in H.
    change (Validator.rtrim (String c (String a s)))
      with (match Validator.rtrim (String a s) with
            | EmptyString =>
                if Validator.is_space c then EmptyString else String c EmptyString
            | kept => String c kept
            end).
    by rewrite (IH H).
Qed.

Lemma rtrim_starts_clean s :
  starts_clean s = true → starts_clean (Validator.rtrim s) = true.
Proof.
  destruct s as [|c s]; [done|]. simpl. intros H.
  destruct (Validator.rtrim s); [|done].
  destruct (Validator.is_space c) eqn:E; simpl in *; [done|by rewrite E].
Qed.

(** [trim] leaves no white space at either end, and a string with none is
    left as it is. *)
Lemma trim_clean s :
  starts_clean (Validator.trim s) = true ∧ ends_clean (Validator.trim s) = true.
Proof.
  unfold Validator.trim. split.
  - apply rtrim_starts_clean, ltrim_starts_clean.
  - apply rtrim_ends_clean.
Qed.

Lemma trim_fixed s :
  starts_clean s = true → ends_clean s = true → Validator.trim s = s.
Proof.
  intros Hs He. unfold Validator.trim. rewrite (ltrim_clean s Hs).
  by apply rtrim_clean.
Qed.

Lemma string_app_empty_r s : s +:+ "" = s.
Proof.
  induction s as [|c s IH]; [done|].
  change (String c s +:+ "") with (String c (s +:+ "")). by rewrite IH.
Qed.

Lemma ends_clean_app s1 s2 :
  s2 ≠ "" → ends_clean (s1 +:+ s2) = ends_clean s2.
Proof.
  intros Hne. induction s1 as [|c s1 IH]; [done|].
  change (String c s1 +:+ s2) with (String c (s1 +:+ s2)).
  destruct (s1 +:+ s2) as [|a r] eqn:E; [|done].
  destruct s1; [|done]. simpl in E. by subst.
Qed.

Lemma escape_char_clean c :
  Validator.is_space c = false →
  starts_clean (Validator.escape_char c) = true ∧
  ends_clean (Validator.escape_char c) = true.
Proof. by destruct c as [[] [] [] [] [] [] [] []]. Qed.

Lemma escape_starts_clean s :
  starts_clean s = true → starts_clean (Validator.escape s) = true.
Proof.
  destruct s as [|c s]; [done|]. simpl. intros H%negb_true_iff.
  destruct (escape_char_clean c H) as [Hs _].
  pose proof (escape_char_nonempty c) as Hne.
  by destruct (Validator.escape_char c).
Qed.

Lemma escape_ends_clean s :
  ends_clean s = true → ends_clean (Validator.escape s) = true.
Proof.
  induction s as [|c s IH]; [done|]. destruct s as [|a s].
  - simpl. intros H%negb_true_iff. destruct (escape_char_clean c H) as [_ He].
    by rewrite string_app_empty_r.
  - intros H. change (ends_clean (String a s) = true) in H.
    change (Validator.escape (String c (String a s)))
      with (Validator.escape_char c +:+ Validator.escape (String a s)).
    rewrite ends_clean_app; [by apply IH|]. by apply escape_nonempty.
Qed.

(** A sanitized value is free of markup and has no white space at either
    end; it is at most six times as long as the trimmed value. *)
Lemma sanitized_markup_free v : markup_free (sanitized v).
Proof. apply escape_markup_free. Qed.

Lemma sanitized_trimmed v : Validator.trim (sanitized v) = sanitized v.
Proof.
  destruct (trim_clean v) as [Hs He]. apply trim_fixed.
  - by apply escape_starts_clean.
  - by apply escape_ends_clean.
Qed.

Lemma sanitized_length v :
  (1 ≤ String.length (Validator.trim v) ≤ 25)%nat →
  (1 ≤ String.length (sanitized v) ≤ 150)%nat.
Proof.
  intros H. unfold sanitized.
  pose proof (escape_length (Validator.trim v)). lia.
Qed.

End SanitizedText.

Section TextValues.

Context {DB : Type}.
Variable conn_query : query → DB → (OkPacket + exn) * DB.

Implicit Types (e : endpoint) (request : ExpressValidator.request)
  (p : pool_state) (db : DB).

Lemma text_in_bounds_required v :
  text_in_bounds false v →
  ∃ s, v = Some s ∧ (1 ≤ String.length (Validator.trim s) ≤ 25)%nat.
Proof. destruct v as [s|]; [by exists s|done]. Qed.

(** In the statement of a valid request, every value that comes from a
    text field is the sanitized form of a field in bounds. *)
Lemma text_params_sanitized e request :
  valid (chains (route_of conn_query e)) request →
  Forall (λ x, ∃ v, x = Some (sanitized v) ∧
                    (1 ≤ String.length (Validator.trim v) ≤ 25)%nat)
    (text_params e
       (query_of e (fst (run_chains (chains (route_of conn_query e)) request)))).
Proof.
  intros [_ Hb]%valid_iff.
  destruct e; cbn [route_of query_of text_params fields_in_bounds] in *.
  - destruct Hb as [(n & En & Hn)%text_in_bounds_required
                    (c & Ec & Hc)%text_in_bounds_required].
    rewrite post_chains_run. cbn [fst]. unfold post_query. cbn [values tail].
    rewrite sanitize_twice_name, sanitize_twice_city, En, Ec.
    repeat constructor; eauto.
  - unfold patch_query. cbn [values].
    rewrite patch_request_name, patch_request_city.
    rewrite app_assoc, removelast_last.
    destruct Hb as [Hn Hc]. apply Forall_app. split.
    + destruct (req_body request !! "companyName") as [n|]; [|by constructor].
      cbn [fmap option_fmap option_map]. destruct (truthy _); repeat constructor; eauto.
    + destruct (req_body request !! "companyCity") as [c|]; [|by constructor].
      cbn [fmap option_fmap option_map]. destruct (truthy _); repeat constructor; eauto.
  - destruct Hb as [(n & En & Hn)%text_in_bounds_required
                    (c & Ec & Hc)%text_in_bounds_required].
    rewrite put_chains_run. cbn [fst]. unfold put_query. cbn [values tail].
    rewrite sanitize_twice_name, sanitize_twice_city, En, Ec.
    repeat constructor; eauto.
  - constructor.
Qed.

Lemma executed_text_params e request p db (P : option string → Prop) :
  (∀ v, (1 ≤ String.length (Validator.trim v) ≤ 25)%nat → P (Some (sanitized v))) →
  Forall (λ q, Forall P (text_params e q))
    (executed (trace (snd (serve (route_of conn_query e) request p db)))).
Proof.
  intros HP.
  destruct (serve_cases conn_query e request p db) as [[Hex _]|(Hv & _ & Hex & _)];
    rewrite Hex; [constructor|].
  constructor; [|constructor].
  eapply Forall_impl; [by apply text_params_sanitized|].
  intros x (v & -> & Hv'). by apply HP.
Qed.

End TextValues.

(** X1.  Whatever the request, no value that a mutating handler binds for
    [COMPANY_NAME] or [COMPANY_CITY] contains a double or single quote,
    [<], [>], [/], a backslash or a backtick. *)
Theorem text_values_have_no_markup
    {DB : Type} (conn_query : query → DB → (OkPacket + exn) * DB)
    (e : endpoint) (request : ExpressValidator.request) (p : pool_state) (db : DB) :
  Forall (λ q, Forall (λ x, ∃ s, x = Some s ∧ markup_free s) (text_params e q))
    (executed (trace (snd (serve (route_of conn_query e) request p db)))).
Proof.
  apply executed_text_params. intros v _. exists (sanitized v).
  split; [done|]. apply sanitized_markup_free.
Qed.

(** X2.  Whatever the request, every value bound for [COMPANY_NAME] or
    [COMPANY_CITY] has between 1 and 150 characters and no white space at
    either end: the bound of 25 is on the trimmed input, and escaping
    makes a character up to six. *)
Theorem text_values_length_and_ends
    {DB : Type} (conn_query : query → DB → (OkPacket + exn) * DB)
    (e : endpoint) (request : ExpressValidator.request) (p : pool_state) (db : DB) :
  Forall (λ q, Forall (λ x, ∃ s, x = Some s ∧
                               (1 ≤ String.length s ≤ 150)%nat ∧
                               Validator.trim s = s)
                 (text_params e q))
    (executed (trace (snd (serve (route_of conn_query e) request p db)))).
Proof.
  apply executed_text_params. intros v Hv. exists (sanitized v).
  split; [done|]. split; [by apply sanitized_length|apply sanitized_trimmed].
Qed.

(** The bound of 150 is met: twenty-five double quotes pass the PUT chains
    and are bound as 150 characters. *)
Example text_value_of_150_characters :
  let quotes := String.concat "" (replicate 25 (String (ascii_of_nat 34) "")) in
  let request :=
    Request {[ "companyName" := quotes; "companyCity" := "Charlotte" ]}
            {[ "companyId" := "C001" ]} in
  valid (chains (app_put (execute true))) request ∧
  (λ q, String.length <$> (values q !! 1%nat : option (option string)) ≫= id) <$>
    executed (trace (snd (serve (app_put (execute true)) request (Pool 10 0) []))) =
  [Some 150%nat].
Proof. by vm_compute. Qed.

(** ** Further properties: every request, any database *)

Section Outcomes.

Context {DB : Type}.
Variable conn_query : query → DB → (OkPacket + exn) * DB.

Implicit Types (e : endpoint) (request : ExpressValidator.request)
  (p : pool_state) (db : DB).

Ltac outcome_done Hv :=
  unfold finish; cbn [req validation_errors pool database trace app fst snd];
  rewrite Hv; done.

(** A request that reaches its statement: what is sent, what comes back,
    and the connection returned either way. *)
Lemma serve_statement e request p db :
  reaches_statement conn_query e request →
  available p →
  let request' := fst (run_chains (chains (route_of conn_query e)) request) in
  serve (route_of conn_query e) request p db =
  match conn_query (query_of e request') db with
  | (inl result, db') =>
      (inl (),
       {| req := request'; validation_errors := []; pool := p; database := db';
          trace := [Acquire; Execute (query_of e request');
                    Respond (fst (answer e result)) (snd (answer e result));
                    Release] |})
  | (inr err, db') =>
      (inl (),
       {| req := request'; validation_errors := []; pool := p; database := db';
          trace := [Acquire; Execute (query_of e request')] ++ caught (error_label e) |})
  end.
Proof.
  intros [Hv Hf] Hp. cbv zeta. rewrite serve_unfold. unfold valid in Hv.
  destruct e; cbn [route_of query_of answer error_label] in *.
  - rewrite post_valid by done. cbn [req database].
    destruct (conn_query _ db) as [[result|err] db']; outcome_done Hv.
  - rewrite patch_valid; [|done|done|by apply patch_valid_truthy; auto].
    cbn [req database].
    destruct (conn_query _ db) as [[result|err] db']; [|outcome_done Hv].
    destruct (affectedRows result =? 0); outcome_done Hv.
  - rewrite put_valid by done. cbn [req database].
    destruct (conn_query _ db) as [[result|err] db']; [|outcome_done Hv].
    destruct (_ && _); outcome_done Hv.
  - rewrite delete_valid by done. cbn [req database].
    destruct (conn_query _ db) as [[result|err] db']; [|outcome_done Hv].
    destruct (affectedRows result =? 0); outcome_done Hv.
Qed.

(** A request does not reach its statement when it is invalid or, for
    PATCH, sent neither field. *)
Lemma reaches_statement_dec e request :
  reaches_statement conn_query e request ∨
  ¬ valid (chains (route_of conn_query e)) request ∨
  (e = patch_company ∧ valid (chains (route_of conn_query e)) request ∧
   req_body request !! "companyName" = None ∧
   req_body request !! "companyCity" = None).
Proof.
  unfold reaches_statement, valid.
  destruct (snd (run_chains (chains (route_of conn_query e)) request)) as [|err errs];
    [|by right; left].
  destruct e; try by left.
  destruct (req_body request !! "companyName") as [n|] eqn:En; [left; eauto|].
  destruct (req_body request !! "companyCity") as [c|] eqn:Ec; [left; eauto|].
  by right; right.
Qed.

End Outcomes.

(** X3.  With a connection available, every request to a mutating
    endpoint gets exactly one response, and its status is one of those
    the handler has: 201, 400, 500 for POST; 200, 400, 404, 500 for PATCH
    and DELETE; 200, 201, 400, 500 for PUT. *)
Theorem one_response_with_a_listed_status
    {DB : Type} (conn_query : query → DB → (OkPacket + exn) * DB)
    (e : endpoint) (request : ExpressValidator.request) (p : pool_state) (db : DB) :
  available p →
  ∃ st payload,
    responses (trace (snd (serve (route_of conn_query e) request p db))) =
      [(st, payload)] ∧
    st ∈ statuses e.
Proof.
  intros Hp.
  destruct (reaches_statement_dec conn_query e request)
    as [Hr|[Hinv|(-> & Hv & Hn & Hc)]].
  - rewrite serve_statement by done. cbv zeta.
    destruct (conn_query _ db) as [[result|err] db'].
    + exists (fst (answer e result)), (snd (answer e result)). split; [done|].
      destruct e; cbn [answer statuses];
        repeat match goal with |- context [if ?b then _ else _] => destruct b end;
        cbn [fst]; repeat first [apply list_elem_of_here | apply list_elem_of_further].
    + exists 500, (error_ "Internal server error"). split; [done|].
      destruct e; cbn [statuses];
        repeat first [apply list_elem_of_here | apply list_elem_of_further].
  - rewrite serve_invalid by done. eexists _, _. split; [done|].
    destruct e; cbn [statuses];
      repeat first [apply list_elem_of_here | apply list_elem_of_further].
  - cbn [route_of]. destruct (patch_absent_falsy conn_query request Hn Hc) as [Hfn Hfc].
    rewrite serve_unfold, patch_no_field by done. eexists _, _. split; [done|].
    cbn [statuses]. repeat first [apply list_elem_of_here | apply list_elem_of_further].
Qed.

Lemma one_response_with_a_listed_status_witness :
  ∃ st payload,
    responses (trace (snd (serve (route_of (execute true) delete_company)
                             (Request ∅ {[ "companyId" := "C404" ]}) (Pool 10 0) []))) =
      [(st, payload)] ∧
    st ∈ statuses delete_company.
Proof.
  apply (one_response_with_a_listed_status (execute true) delete_company).
  unfold available; simpl; lia.
Defined.

(** X4.  When the statement of a request throws, whatever it throws, the
    response is the 500 with the fixed body, the error is logged, nothing
    of it reaches the caller, and the connection is back in the pool. *)
Theorem statement_error_is_a_generic_500
    {DB : Type} (conn_query : query → DB → (OkPacket + exn) * DB)
    (e : endpoint) (request : ExpressValidator.request) (p : pool_state) (db : DB) :
  reaches_statement conn_query e request →
  available p →
  let out := snd (serve (route_of conn_query e) request p db) in
  ∃ q, executed (trace out) = [q] ∧
       ∀ err db', conn_query q db = (inr err, db') →
         trace out =
           [Acquire; Execute q; ConsoleError (error_label e);
            Respond 500 (error_ "Internal server error"); Release] ∧
         pool out = p ∧ database out = db'.
Proof.
  intros Hr Hp. cbv zeta. rewrite serve_statement by done. cbv zeta.
  set (q := query_of e _). exists q.
  destruct (conn_query q db) as [[result|err] db1].
  - split; [done|]. by intros err db' [=].
  - split; [done|]. by intros err' db' [= <- <-].
Qed.

Lemma statement_error_is_a_generic_500_witness :
  let out :=
    snd (serve (route_of (execute true) post_companies)
           (Request {[ "companyId" := "C001"; "companyName" := "TechCorp";
                       "companyCity" := "San Francisco" ]} ∅)
           (Pool 10 0) [Row "C001" "Tech" "Charlotte"]) in
  ∃ q, executed (trace out) = [q] ∧
       ∀ err db',
         execute true q [Row "C001" "Tech" "Charlotte"] = (inr err, db') →
         trace out =
           [Acquire; Execute q; ConsoleError (error_label post_companies);
            Respond 500 (error_ "Internal server error"); Release] ∧
         pool out = Pool 10 0 ∧ database out = db'.
Proof.
  apply (statement_error_is_a_generic_500 (execute true) post_companies).
  - split; [by vm_compute|done].
  - unfold available; simpl; lia.
Defined.

(** X5.  With no connection to be had, a mutating handler sends no
    response at all: it rejects with the generic error of
    [getDbConnection], having logged once, executed nothing and left pool
    and database as they were. *)
Theorem exhausted_pool_gets_no_response
    {DB : Type} (conn_query : query → DB → (OkPacket + exn) * DB)
    (e : endpoint) (request : ExpressValidator.request) (p : pool_state) (db : DB) :
  ¬ available p →
  let out := serve (route_of conn_query e) request p db in
  fst out = inr (Error "Internal server error") ∧
  trace (snd out) = [ConsoleError "Database connection error:"] ∧
  pool (snd out) = p ∧ database (snd out) = db.
Proof. intros Hp. cbv zeta. by rewrite serve_exhausted. Qed.

Lemma exhausted_pool_gets_no_response_witness :
  let out :=
    serve (route_of (execute true) put_company)
      (Request {[ "companyName" := "TechCorp"; "companyCity" := "San Francisco" ]}
               {[ "companyId" := "C001" ]})
      (Pool 10 10) [] in
  fst out = inr (Error "Internal server error") ∧
  trace (snd out) = [ConsoleError "Database connection error:"] ∧
  pool (snd out) = Pool 10 10 ∧ database (snd out) = [].
Proof.
  apply (exhausted_pool_gets_no_response (execute true) put_company).
  unfold available; simpl; lia.
Defined.

(** X6.  Whenever a statement was executed, whether it resolved or threw,
    the connection is released: the pool is as before the request and
    [Release] is the last thing that happens. *)
Theorem executed_statement_releases
    {DB : Type} (conn_query : query → DB → (OkPacket + exn) * DB)
    (e : endpoint) (request : ExpressValidator.request) (p : pool_state) (db : DB) :
  let out := snd (serve (route_of conn_query e) request p db) in
  executed (trace out) ≠ [] →
  pool out = p ∧ last (trace out) = Some Release.
Proof.
  cbv zeta. intros Hex.
  destruct (decide (active p < connectionLimit p)%nat) as [Hp|Hp];
    [|by rewrite serve_exhausted in Hex].
  destruct (reaches_statement_dec conn_query e request)
    as [Hr|[Hinv|(-> & Hv & Hn & Hc)]].
  - rewrite serve_statement by done. cbv zeta.
    by destruct (conn_query _ db) as [[result|err] db'].
  - by rewrite serve_invalid in Hex.
  - cbn [route_of] in *.
    destruct (patch_absent_falsy conn_query request Hn Hc) as [Hfn Hfc].
    by rewrite serve_unfold, patch_no_field in Hex.
Qed.

Lemma executed_statement_releases_witness :
  let out :=
    snd (serve (route_of (execute true) delete_company)
           (Request ∅ {[ "companyId" := "C001" ]}) (Pool 10 4)
           [Row "C001" "Tech" "Charlotte"]) in
  pool out = Pool 10 4 ∧ last (trace out) = Some Release.
Proof.
  apply (executed_statement_releases (execute true) delete_company).
  by vm_compute.
Defined.

Section Leak.

Context {DB : Type}.
Variable conn_query : query → DB → (OkPacket + exn) * DB.

Lemma serve_all_invalid (e : endpoint) (requests : list ExpressValidator.request)
    (p : pool_state) (db : DB) :
  Forall (λ request, ¬ valid (chains (route_of conn_query e)) request) requests →
  (active p + length requests ≤ connectionLimit p)%nat →
  serve_all (route_of conn_query e) requests p db =
  ({| connectionLimit := connectionLimit p;
      active := (active p + length requests)%nat |}, db).
Proof.
  intros Hinv. revert p. induction Hinv as [|request requests Hr _ IH]; intros p Hle.
  - simpl. rewrite Nat.add_0_r. by destruct p.
  - cbn [serve_all length] in *.
    rewrite serve_invalid; [|done|unfold available; lia]. cbn [snd pool database].
    rewrite IH by (simpl; lia). simpl. do 2 f_equal. lia.
Qed.

End Leak.

(** X7.  Each request that fails validation keeps one connection: after as
    many of them as the pool had connections left, the database is
    untouched, the pool is used up, and no further request to a mutating
    endpoint, valid or not, gets a response. *)
Theorem invalid_requests_use_up_the_pool
    {DB : Type} (conn_query : query → DB → (OkPacket + exn) * DB)
    (e e' : endpoint) (requests : list ExpressValidator.request)
    (request' : ExpressValidator.request) (p : pool_state) (db : DB) :
  Forall (λ request, ¬ valid (chains (route_of conn_query e)) request) requests →
  (active p + length requests = connectionLimit p)%nat →
  let after := serve_all (route_of conn_query e) requests p db in
  active (fst after) = connectionLimit p ∧
  snd after = db ∧
  responses
    (trace (snd (serve (route_of conn_query e') request' (fst after) (snd after)))) = [].
Proof.
  intros Hinv Hlen. cbv zeta. rewrite serve_all_invalid by (done || lia).
  cbn [fst snd active]. split; [done|]. split; [done|].
  rewrite serve_exhausted; [done|]. unfold available. simpl. lia.
Qed.

Lemma invalid_requests_use_up_the_pool_witness :
  let after :=
    serve_all (route_of (execute true) delete_company)
      [Request ∅ {[ "companyId" := "C000001" ]};
       Request ∅ {[ "companyId" := "C000002" ]}]
      (Pool 3 1) [Row "C001" "Tech" "Charlotte"] in
  active (fst after) = connectionLimit (Pool 3 1) ∧
  snd after = [Row "C001" "Tech" "Charlotte"] ∧
  responses
    (trace (snd (serve (route_of (execute true) delete_company)
                   (Request ∅ {[ "companyId" := "C001" ]})
                   (fst after) (snd after)))) = [].
Proof.
  apply (invalid_requests_use_up_the_pool (execute true) delete_company delete_company).
  - repeat constructor; by vm_compute.
  - reflexivity.
Defined.

(** X8.  The text of every statement a mutating handler executes is one of
    six fixed texts, whatever the request holds, and it has as many [?] as
    the statement has values. *)
Theorem statement_texts_are_fixed
    {DB : Type} (conn_query : query → DB → (OkPacket + exn) * DB)
    (e : endpoint) (request : ExpressValidator.request) (p : pool_state) (db : DB) :
  Forall (λ q, sql q ∈ statement_texts ∧ placeholders (sql q) = length (values q))
    (executed (trace (snd (serve (route_of conn_query e) request p db)))).
Proof.
  destruct (serve_cases conn_query e request p db) as [[Hex _]|(_ & _ & Hex & _ & _ & Ht)];
    rewrite Hex; [constructor|].
  constructor; [|constructor].
  destruct e; cbn [query_of route_of] in *.
  - split; [|done]. unfold statement_texts, post_query; cbn [sql].
    repeat first [apply list_elem_of_here | apply list_elem_of_further].
  - specialize (Ht eq_refl). unfold patch_query. cbn [sql values].
    destruct (truthy _), (truthy _); try (by destruct Ht);
      (split; [|done]); unfold statement_texts;
      repeat first [apply list_elem_of_here | apply list_elem_of_further].
  - split; [|done]. unfold statement_texts, put_query; cbn [sql].
    repeat first [apply list_elem_of_here | apply list_elem_of_further].
  - split; [|done]. unfold statement_texts, delete_query; cbn [sql].
    repeat first [apply list_elem_of_here | apply list_elem_of_further].
Qed.

(** X9.  With a connection available, PATCH answers with the
    at-least-one-field 400 exactly when the request is valid and carries
    neither [companyName] nor [companyCity]; an empty or blank field is
    not "no field" but a validation error. *)
Theorem patch_no_field_body_iff
    {DB : Type} (conn_query : query → DB → (OkPacket + exn) * DB)
    (request : ExpressValidator.request) (p : pool_state) (db : DB) :
  available p →
  responses (trace (snd (serve (app_patch conn_query) request p db))) =
    [(400, error_ "At least one field (companyName or companyCity) must be provided")] ↔
  valid (chains (app_patch conn_query)) request ∧
  req_body request !! "companyName" = None ∧
  req_body request !! "companyCity" = None.
Proof.
  intros Hp.
  destruct (reaches_statement_dec conn_query patch_company request)
    as [Hr|[Hinv|(_ & Hv & Hn & Hc)]]; cbn [route_of] in *.
  - rewrite (serve_statement conn_query patch_company) by done. cbv zeta.
    split.
    + destruct (conn_query _ db) as [[result|err] db']; [|done].
      cbn [answer]. by destruct (affectedRows result =? 0).
    + intros (_ & Hn & Hc). destruct Hr as [_ Hf].
      destruct (Hf eq_refl) as [[v Hs]|[v Hs]]; congruence.
  - rewrite (serve_invalid conn_query patch_company) by done.
    split; [done|]. by intros [Hv _].
  - destruct (patch_absent_falsy conn_query request Hn Hc) as [Hfn Hfc].
    by rewrite serve_unfold, patch_no_field.
Qed.

Lemma patch_no_field_body_iff_witness :
  responses
    (trace (snd (serve (app_patch (execute true))
                   (Request {[ "companyName" := "   " ]} {[ "companyId" := "C001" ]})
                   (Pool 10 0) []))) =
    [(400, error_ "At least one field (companyName or companyCity) must be provided")] ↔
  valid (chains (app_patch (execute true)))
        (Request {[ "companyName" := "   " ]} {[ "companyId" := "C001" ]}) ∧
  req_body (Request {[ "companyName" := "   " ]} {[ "companyId" := "C001" ]})
    !! "companyName" = None ∧
  req_body (Request {[ "companyName" := "   " ]} {[ "companyId" := "C001" ]})
    !! "companyCity" = None.
Proof.
  apply (patch_no_field_body_iff (execute true)).
  unfold available; simpl; lia.
Defined.

(** X27.  A request that reaches its statement, with a connection
    available, answers a statement that resolves by the result alone, and
    leaves the database as the driver left it: POST answers the 201
    whatever the result says; PATCH and DELETE answer the 404 exactly when
    [affectedRows] is 0, and their 200 exactly when it is not. *)
Theorem resolved_statement_is_answered_by_its_result
    {DB : Type} (conn_query : query → DB → (OkPacket + exn) * DB)
    (e : endpoint) (request : ExpressValidator.request) (p : pool_state) (db : DB)
    (result : OkPacket) (db' : DB) :
  reaches_statement conn_query e request →
  available p →
  conn_query (query_of e (fst (run_chains (chains (route_of conn_query e)) request))) db =
    (inl result, db') →
  let out := snd (serve (route_of conn_query e) request p db) in
  responses (trace out) = [answer e result] ∧
  database out = db' ∧
  (e = post_companies →
   responses (trace out) = [(201, message_ "Company created successfully")]) ∧
  (e = patch_company ∨ e = delete_company →
   (status_of (trace out) = Some 404 ↔ affectedRows result = 0) ∧
   (status_of (trace out) = Some 200 ↔ affectedRows result ≠ 0)).
Proof.
  intros Hr Hp Hq. cbv zeta. rewrite serve_statement by done. cbv zeta.
  rewrite Hq. cbn [snd trace database].
  split; [by destruct (answer e result)|]. split; [done|]. split.
  - by intros ->.
  - unfold status_of.
    intros [-> | ->]; cbn [answer];
      destruct (Z.eqb_spec (affectedRows result) 0) as [Hz|Hz]; simpl;
      (split; split; intros H; first [done | by inversion H]).
Qed.

Lemma resolved_statement_is_answered_by_its_result_witness :
  let no_rows := λ (_ : query) (u : unit),
    (inl {| affectedRows := 0; warningStatus := 0 |} : OkPacket + exn, u) in
  let request := Request ∅ {[ "companyId" := "C404" ]} in
  let out := snd (serve (route_of no_rows delete_company) request (Pool 10 0) ()) in
  responses (trace out) =
    [answer delete_company {| affectedRows := 0; warningStatus := 0 |}] ∧
  database out = () ∧
  (delete_company = post_companies →
   responses (trace out) = [(201, message_ "Company created successfully")]) ∧
  (delete_company = patch_company ∨ delete_company = delete_company →
   (status_of (trace out) = Some 404 ↔ 0 = 0) ∧
   (status_of (trace out) = Some 200 ↔ 0 ≠ 0)).
Proof.
  intros no_rows request.
  apply (resolved_statement_is_answered_by_its_result no_rows delete_company request
           (Pool 10 0) () {| affectedRows := 0; warningStatus := 0 |} ()).
  - split; [by vm_compute|]. intros [=].
  - unfold available; simpl; lia.
  - reflexivity.
Defined.

(** ** Further properties: the handlers on the [company] table *)

Section TableStatements.

Implicit Types (t : list row) (r : row) (foundRows : bool).

(** The POST statement on the table. *)
Lemma execute_insert foundRows id name city t :
  execute foundRows
    (Query "INSERT INTO company (COMPANY_ID, COMPANY_NAME, COMPANY_CITY) VALUES (?, ?, ?)"
           [Some id; Some name; Some city]) t =
  if bool_decide (id ∈ ids t) then (inr (Error "ER_DUP_ENTRY"), t)
  else (ok 1, t ++ [Row id name city]).
Proof.
  unfold execute. cbn [sql values].
  assert (parse "INSERT INTO company (COMPANY_ID, COMPANY_NAME, COMPANY_CITY) VALUES (?, ?, ?)"
          = Some INSERT) as -> by by vm_compute.
  done.
Qed.

End TableStatements.

Section TableRequests.

Context {DB : Type}.
Variable conn_query : query → DB → (OkPacket + exn) * DB.

Implicit Types (request : ExpressValidator.request).

(** The statement of a valid POST: the id as sent, name and city
    sanitized. *)
Lemma post_query_valid request :
  valid (chains (app_post conn_query)) request →
  ∃ id name city,
    req_body request !! "companyId" = Some id ∧
    req_body request !! "companyName" = Some name ∧
    req_body request !! "companyCity" = Some city ∧
    post_query (fst (run_chains (chains (app_post conn_query)) request)) =
    Query "INSERT INTO company (COMPANY_ID, COMPANY_NAME, COMPANY_CITY) VALUES (?, ?, ?)"
          [Some id; Some (sanitized name); Some (sanitized city)].
Proof.
  intros Hv. apply (valid_iff conn_query post_companies) in Hv as [Hid [Hn Hc]].
  cbn [id_location get_field] in Hid.
  apply text_in_bounds_required in Hn as (name & En & _).
  apply text_in_bounds_required in Hc as (city & Ec & _).
  destruct (req_body request !! "companyId") as [id|] eqn:Ei; [|simpl in Hid; lia].
  exists id, name, city. repeat split; try done.
  rewrite post_chains_run. cbn [fst]. unfold post_query.
  rewrite sanitize_twice_name, sanitize_twice_city,
    sanitize_twice_other by discriminate.
  by rewrite Ei, En, Ec.
Qed.

End TableRequests.

(** X11.  A valid POST whose id is already in the table answers the
    generic 500, not a conflict status; the table is unchanged and the
    connection is returned. *)
Theorem post_duplicate_id_is_500
    (foundRows : bool) (request : ExpressValidator.request) (p : pool_state)
    (t : list row) (id : string) :
  valid (chains (app_post (execute foundRows))) request →
  available p →
  req_body request !! "companyId" = Some id →
  id ∈ ids t →
  let out := snd (serve (app_post (execute foundRows)) request p t) in
  responses (trace out) = [(500, error_ "Internal server error")] ∧
  database out = t ∧
  pool out = p.
Proof.
  intros Hv Hp Hi Hdup. cbv zeta.
  destruct (post_query_valid (execute foundRows) request Hv)
    as (id' & name' & city' & Hi' & _ & _ & Hq).
  rewrite Hi in Hi'. injection Hi' as <-.
  rewrite (serve_statement (execute foundRows) post_companies) by (done || by split).
  cbv zeta. cbn [query_of route_of]. rewrite Hq, execute_insert.
  by rewrite bool_decide_eq_true_2.
Qed.

Lemma post_duplicate_id_is_500_witness :
  let request :=
    Request {[ "companyId" := "C001"; "companyName" := "Other";
               "companyCity" := "Charlotte" ]} ∅ in
  let out :=
    snd (serve (app_post (execute true)) request (Pool 10 0)
           [Row "C001" "TechCorp" "San Francisco"]) in
  responses (trace out) = [(500, error_ "Internal server error")] ∧
  database out = [Row "C001" "TechCorp" "San Francisco"] ∧
  pool out = Pool 10 0.
Proof.
  apply (post_duplicate_id_is_500 true _ _ _ "C001").
  - by vm_compute.
  - unfold available; simpl; lia.
  - by vm_compute.
  - apply (bool_decide_unpack _). by vm_compute.
Defined.

(** ** Further properties: the read endpoints *)

Section ReadPaths.

Context {DB : Type}.
Variable conn_query : string → DB → (list (gmap string string) + exn) * DB.

Implicit Types (e : read_endpoint) (p : pool_state) (db : DB).

Ltac read_unfold :=
  cbv [Reads.serve read_handler Reads.app_get_items Reads.app_get_studenttitles
       Reads.app_get_companies Reads.try_catch_finally Reads.try_catch
       Reads.assign_req_db Reads.set_req_db Reads.getDbConnection
       Reads.pool_getConnection Reads.db_query Reads.db_release Reads.rows_map
       Reads.res_json Reads.res_status_json Reads.console_error Reads.emit
       Reads.throw mbind mret Reads.M_bind Reads.M_ret
       Reads.req_db Reads.pool Reads.database Reads.trace read_text read_label
       read_body read_caught].

(** A read with a connection available: the statement runs, and whatever
    it gives, and whatever the rows hold, one response goes out and the
    connection goes back. *)
Lemma read_served e p db :
  available p →
  Reads.serve (read_handler conn_query e) p db =
  match conn_query (read_text e) db with
  | (inl rows, db') =>
      match read_body e rows with
      | Some list =>
          (inl (),
           Reads.State true p db'
             [Reads.Acquire; Reads.Execute (read_text e); Reads.Respond 200 list;
              Reads.Release])
      | None =>
          (inl (),
           Reads.State true p db'
             ([Reads.Acquire; Reads.Execute (read_text e)] ++ read_caught e))
      end
  | (inr err, db') =>
      (inl (),
       Reads.State true p db'
         ([Reads.Acquire; Reads.Execute (read_text e)] ++ read_caught e))
  end.
Proof.
  intros H%getConnection_available. destruct e; read_unfold; rewrite H; cbn.
  all: destruct (conn_query _ db) as [[rows|err] db']; cbn;
    rewrite ?release_acquired; try done.
  all: match goal with |- context [mapM ?f ?l] => destruct (mapM f l) end;
    cbn; by rewrite ?release_acquired.
Qed.

(** A read with no connection to be had: the 500 is sent from [catch], and
    then [finally] throws, [req.db] never having been assigned. *)
Lemma read_exhausted e p db :
  ¬ available p →
  Reads.serve (read_handler conn_query e) p db =
  (inr (Reads.undefined_req_db "release"),
   Reads.State false p db
     [Reads.ConsoleError "Database connection error:";
      Reads.ConsoleError (read_label e);
      Reads.Respond 500 (Reads.error_ "Internal server error")]).
Proof.
  intros H%getConnection_exhausted. destruct e; read_unfold; by rewrite H.
Qed.

End ReadPaths.

(** X18.  With a connection available, a read endpoint always completes:
    whether the statement resolves or throws and whatever the rows hold,
    it sends exactly one response, a 200 or a 500, and the connection is
    back in the pool. *)
Theorem read_answers_once_and_releases
    {DB : Type} (conn_query : string → DB → (list (gmap string string) + exn) * DB)
    (e : read_endpoint) (p : pool_state) (db : DB) :
  available p →
  let out := Reads.serve (read_handler conn_query e) p db in
  fst out = inl () ∧
  Reads.pool (snd out) = p ∧
  last (Reads.trace (snd out)) = Some Reads.Release ∧
  ∃ st payload,
    Reads.responses (Reads.trace (snd out)) = [(st, payload)] ∧ (st = 200 ∨ st = 500).
Proof.
  intros Hp. cbv zeta. rewrite read_served by done.
  destruct (conn_query _ db) as [[rows|err] db'].
  - destruct (read_body e rows) as [list|]; cbn.
    + repeat split; try done. eexists _, _. split; [done|]. by left.
    + repeat split; try done. eexists _, _. split; [done|]. by right.
  - cbn. repeat split; try done. eexists _, _. split; [done|]. by right.
Qed.

Lemma read_answers_once_and_releases_witness :
  let out := Reads.serve (read_handler Reads.select get_items) (Pool 10 2) [] in
  fst out = inl () ∧
  Reads.pool (snd out) = Pool 10 2 ∧
  last (Reads.trace (snd out)) = Some Reads.Release ∧
  ∃ st payload,
    Reads.responses (Reads.trace (snd out)) = [(st, payload)] ∧ (st = 200 ∨ st = 500).
Proof.
  apply (read_answers_once_and_releases Reads.select get_items).
  unfold available; simpl; lia.
Defined.

(** X19.  With no connection to be had, a read endpoint does answer, with
    the generic 500, and then rejects all the same: [finally] calls
    [release] on a [req.db] that was never assigned.  Nothing is executed
    or released, and pool and database are as they were. *)
Theorem read_without_connection_answers_then_throws
    {DB : Type} (conn_query : string → DB → (list (gmap string string) + exn) * DB)
    (e : read_endpoint) (p : pool_state) (db : DB) :
  ¬ available p →
  let out := Reads.serve (read_handler conn_query e) p db in
  fst out = inr (Error "Cannot read properties of undefined (reading 'release')") ∧
  Reads.responses (Reads.trace (snd out)) =
    [(500, Reads.error_ "Internal server error")] ∧
  Reads.trace (snd out) =
    [Reads.ConsoleError "Database connection error:";
     Reads.ConsoleError (read_label e);
     Reads.Respond 500 (Reads.error_ "Internal server error")] ∧
  Reads.pool (snd out) = p ∧ Reads.database (snd out) = db.
Proof. intros Hp. cbv zeta. by rewrite read_exhausted. Qed.

Lemma read_without_connection_answers_then_throws_witness :
  let out :=
    Reads.serve (read_handler Reads.select get_companies) (Pool 10 10)
      [Row "C001" "TechCorp" "San Francisco"] in
  fst out = inr (Error "Cannot read properties of undefined (reading 'release')") ∧
  Reads.responses (Reads.trace (snd out)) =
    [(500, Reads.error_ "Internal server error")] ∧
  Reads.trace (snd out) =
    [Reads.ConsoleError "Database connection error:";
     Reads.ConsoleError (read_label get_companies);
     Reads.Respond 500 (Reads.error_ "Internal server error")] ∧
  Reads.pool (snd out) = Pool 10 10 ∧
  Reads.database (snd out) = [Row "C001" "TechCorp" "San Francisco"].
Proof.
  apply (read_without_connection_answers_then_throws Reads.select get_companies).
  unfold available; simpl; lia.
Defined.

Section ReadRows.

Implicit Types (rows : list (gmap string string)) (column : string).

(** Mapping [row.COLUMN.trim()] over the rows: it goes through exactly when
    every row has a string there, and then gives the trimmed strings in
    row order. *)
Lemma mapM_column_trim column rows :
  match mapM (Reads.column_trim column) rows with
  | Some l =>
      Forall (λ row, is_Some (row !! column)) rows ∧
      Forall2 (λ row x, ∃ v, row !! column = Some v ∧ x = Reads.trim v) rows l
  | None => ¬ Forall (λ row, is_Some (row !! column)) rows
  end.
Proof.
  unfold Reads.column_trim.
  induction rows as [|row rows IH]; [by repeat constructor|].
  cbn [mapM].
  destruct (row !! column) as [v|] eqn:E; cbn.
  - destruct (mapM _ rows) as [l|]; cbn.
    + destruct IH as [Hall Hrel]. split; constructor; eauto.
    + intros Hall. apply IH. by inversion Hall.
  - intros Hall. inversion Hall as [|? ? Hrow ?]. destruct Hrow as [v Hv]. congruence.
Qed.

End ReadRows.

(** X20.  [GET /api/items] and [GET /api/studenttitles], with a connection
    available and the statement resolved.  If every row has a string in
    the column, the answer is a 200 whose list has one entry per row, in
    row order, each the column value trimmed; if a single row has none (a
    [NULL]), the whole answer is the generic 500 and no partial list is
    sent. *)
Theorem read_lists_every_row_or_fails
    {DB : Type} (conn_query : string → DB → (list (gmap string string) + exn) * DB)
    (e : read_endpoint) (column : string) (p : pool_state) (db db' : DB)
    (rows : list (gmap string string)) :
  read_columns e = [column] →
  available p →
  conn_query (read_text e) db = (inl rows, db') →
  let out := snd (Reads.serve (read_handler conn_query e) p db) in
  (Forall (λ row, is_Some (row !! column)) rows →
   ∃ payload l,
     Reads.responses (Reads.trace out) = [(200, payload)] ∧
     listed payload = Some l ∧
     length l = length rows ∧
     ∀ i row, rows !! i = Some row →
       ∃ v, row !! column = Some v ∧ l !! i = Some (Reads.trim v)) ∧
  (¬ Forall (λ row, is_Some (row !! column)) rows →
   Reads.responses (Reads.trace out) = [(500, Reads.error_ "Internal server error")]).
Proof.
  intros Hcol Hp Hq. cbv zeta. rewrite read_served, Hq by done.
  assert (∃ wrap, (∀ l, listed (wrap l) = Some l) ∧
                  read_body e rows = wrap <$> mapM (Reads.column_trim column) rows)
    as (wrap & Hwrap & ->).
  { destruct e; cbn in Hcol; try discriminate; injection Hcol as <-.
    - by exists Reads.itemList_.
    - by exists Reads.titleList_. }
  pose proof (mapM_column_trim column rows) as Hm.
  destruct (mapM (Reads.column_trim column) rows) as [l|]; cbn.
  - destruct Hm as [Hall Hrel]. split; [|by intros Hn; destruct Hn].
    intros _. exists (wrap l), l. split; [done|]. split; [done|].
    split; [symmetry; by eapply Forall2_length|].
    intros i row Hrow.
    destruct (Forall2_lookup_l _ _ _ _ _ Hrel Hrow) as (x & Hx & v & Hv & ->).
    by exists v.
  - split; [by intros Hall; destruct Hm|done].
Qed.

Lemma read_lists_every_row_or_fails_witness :
  let conn_query (text : string) (db : list string) :=
    (@inl _ exn ((λ v, ({[ "ITEMNAME" := v ]} : gmap string string)) <$> db), db) in
  let rows : list (gmap string string) :=
    [ {[ "ITEMNAME" := "Pencil    " ]}; {[ "ITEMNAME" := "  Pen" ]} ] in
  let out :=
    snd (Reads.serve (read_handler conn_query get_items) (Pool 10 0)
           ["Pencil    "; "  Pen"]) in
  (Forall (λ row, is_Some (row !! "ITEMNAME")) rows →
   ∃ payload l,
     Reads.responses (Reads.trace out) = [(200, payload)] ∧
     listed payload = Some l ∧
     length l = length rows ∧
     ∀ i row, rows !! i = Some row →
       ∃ v, row !! "ITEMNAME" = Some v ∧ l !! i = Some (Reads.trim v)) ∧
  (¬ Forall (λ row, is_Some (row !! "ITEMNAME")) rows →
   Reads.responses (Reads.trace out) = [(500, Reads.error_ "Internal server error")]).
Proof.
  intros conn_query rows.
  apply (read_lists_every_row_or_fails conn_query get_items "ITEMNAME"
           (Pool 10 0) ["Pencil    "; "  Pen"] ["Pencil    "; "  Pen"] rows).
  - reflexivity.
  - unfold available; simpl; lia.
  - reflexivity.
Defined.

Section ReadTable.

Implicit Types (t : list row) (r : row) (p : pool_state).

Lemma row_object_lookup r :
  Reads.row_object r !! "COMPANY_ID" = Some (company_id r) ∧
  Reads.row_object r !! "COMPANY_NAME" = Some (company_name r) ∧
  Reads.row_object r !! "COMPANY_CITY" = Some (company_city r).
Proof.
  unfold Reads.row_object. split; [apply lookup_insert_eq|]. split.
  - rewrite lookup_insert_ne by discriminate. apply lookup_insert_eq.
  - rewrite !lookup_insert_ne by discriminate. apply lookup_singleton_eq.
Qed.

Lemma company_of_row_object r :
  Reads.company_of_row (Reads.row_object r) = Some (company_entry r).
Proof.
  destruct (row_object_lookup r) as (Hi & Hn & Hc).
  unfold Reads.company_of_row, Reads.column_trim. by rewrite Hi, Hn, Hc.
Qed.

Lemma mapM_company_entries t :
  mapM Reads.company_of_row (Reads.row_object <$> t) = Some (company_entry <$> t).
Proof.
  induction t as [|r t IH]; [done|].
  rewrite !fmap_cons. cbn [mapM]. by rewrite company_of_row_object, IH.
Qed.

(** [GET /api/companies] on the table. *)
Lemma get_companies_table p t :
  available p →
  Reads.serve (read_handler Reads.select get_companies) p t =
  (inl (),
   Reads.State true p t
     [Reads.Acquire; Reads.Execute (read_text get_companies);
      Reads.Respond 200 (Reads.companyList_ (company_entry <$> t));
      Reads.Release]).
Proof.
  intros Hp. rewrite read_served by done.
  unfold Reads.select. rewrite bool_decide_eq_true_2 by done.
  cbn [read_body]. by rewrite mapM_company_entries.
Qed.

End ReadTable.

(** X21.  [GET /api/companies] on the table, with a connection available,
    always answers 200 with one entry per row, in table order, each of the
    three fields trimmed; the table is not changed and the connection is
    returned. *)
Theorem get_companies_lists_the_table (p : pool_state) (t : list row) :
  available p →
  let out := snd (Reads.serve (read_handler Reads.select get_companies) p t) in
  ∃ l,
    Reads.responses (Reads.trace out) = [(200, Reads.companyList_ l)] ∧
    length l = length t ∧
    (∀ i r, t !! i = Some r →
       l !! i = Some (Reads.CompanyEntry (Validator.trim (company_id r))
                        (Validator.trim (company_name r))
                        (Validator.trim (company_city r)))) ∧
    Reads.database out = t ∧
    Reads.pool out = p.
Proof.
  intros Hp. cbv zeta. rewrite get_companies_table by done.
  exists (company_entry <$> t). split; [done|]. split; [by rewrite length_fmap|].
  split; [|done]. intros i r Hr. by rewrite list_lookup_fmap, Hr.
Qed.

Lemma get_companies_lists_the_table_witness :
  let t := [Row "C001  " "TechCorp" "San Francisco ";  Row "C002" "Labs" "Charlotte"] in
  let out :=
    snd (Reads.serve (read_handler Reads.select get_companies) (Pool 10 0) t) in
  ∃ l,
    Reads.responses (Reads.trace out) = [(200, Reads.companyList_ l)] ∧
    length l = length t ∧
    (∀ i r, t !! i = Some r →
       l !! i = Some (Reads.CompanyEntry (Validator.trim (company_id r))
                        (Validator.trim (company_name r))
                        (Validator.trim (company_city r)))) ∧
    Reads.database out = t ∧
    Reads.pool out = Pool 10 0.
Proof.
  apply (get_companies_lists_the_table (Pool 10 0)).
  unfold available; simpl; lia.
Defined.

(** X24.  The chains of a mutating route rewrite [companyName] and
    [companyCity] in the body and nothing else: the path parameters and
    every other field of the body, [companyId] included, reach the handler
    as they came in. *)
Theorem chains_rewrite_only_the_text_fields
    {DB : Type} (conn_query : query → DB → (OkPacket + exn) * DB)
    (e : endpoint) (request : ExpressValidator.request) :
  let request' := fst (run_chains (chains (route_of conn_query e)) request) in
  req_params request' = req_params request ∧
  ∀ path, path ≠ "companyName" → path ≠ "companyCity" →
          req_body request' !! path = req_body request !! path.
Proof.
  cbv zeta. destruct e; cbn [route_of].
  - rewrite post_chains_run. cbn [fst]. split; [done|].
    intros path H1 H2. by apply sanitize_twice_other.
  - rewrite patch_chains_run. cbn [fst]. split; [by rewrite !sanitize_sent_params|].
    intros path H1 H2. by rewrite !sanitize_sent_other.
  - rewrite put_chains_run. cbn [fst]. split; [done|].
    intros path H1 H2. by apply sanitize_twice_other.
  - by rewrite delete_chains_run.
Qed.

Section ReadComplete.

Implicit Types (rows : list (gmap string string)) (row : gmap string string).

Lemma column_trim_is_Some column row :
  is_Some (Reads.column_trim column row) ↔ is_Some (row !! column).
Proof. unfold Reads.column_trim. apply fmap_is_Some. Qed.

Lemma company_of_row_is_Some row :
  is_Some (Reads.company_of_row row) ↔
  Forall (λ column, is_Some (row !! column)) (read_columns get_companies).
Proof.
  unfold Reads.company_of_row, Reads.column_trim. cbn [read_columns].
  rewrite !Forall_cons. split.
  - intros [x Hx].
    destruct (row !! "COMPANY_ID") as [i|]; [|done].
    destruct (row !! "COMPANY_NAME") as [n|]; [|done].
    destruct (row !! "COMPANY_CITY") as [c|]; [|done].
    repeat split; eauto.
  - intros ([i Hi] & [n Hn] & [c Hc] & _). rewrite Hi, Hn, Hc. by eexists.
Qed.

(** A read handler makes a body of the rows exactly when every row has a
    string in each column the handler reads. *)
Lemma read_body_is_Some (e : read_endpoint) rows :
  is_Some (read_body e rows) ↔ rows_complete (read_columns e) rows.
Proof.
  unfold rows_complete.
  destruct e; cbn [read_body read_columns]; rewrite fmap_is_Some, mapM_is_Some;
    apply Forall_proper; try done; intros row; simpl.
  - rewrite column_trim_is_Some. split; [by repeat constructor|by inversion 1].
  - rewrite column_trim_is_Some. split; [by repeat constructor|by inversion 1].
  - apply company_of_row_is_Some.
Qed.

End ReadComplete.

(** X26.  On each of the three read endpoints, with a connection available
    and the statement resolved, the answer is a 200 exactly when every row
    has a string in every column the handler reads; one [NULL] anywhere
    turns the whole answer into the generic 500. *)
Theorem read_is_200_iff_rows_complete
    {DB : Type} (conn_query : string → DB → (list (gmap string string) + exn) * DB)
    (e : read_endpoint) (p : pool_state) (db db' : DB)
    (rows : list (gmap string string)) :
  available p →
  conn_query (read_text e) db = (inl rows, db') →
  let out := snd (Reads.serve (read_handler conn_query e) p db) in
  ((∃ payload, Reads.responses (Reads.trace out) = [(200, payload)]) ↔
   rows_complete (read_columns e) rows) ∧
  (¬ rows_complete (read_columns e) rows →
   Reads.responses (Reads.trace out) = [(500, Reads.error_ "Internal server error")]).
Proof.
  intros Hp Hq. cbv zeta. rewrite read_served, Hq by done.
  rewrite <- read_body_is_Some.
  destruct (read_body e rows) as [list|]; cbn.
  - split; [|by intros Hn; destruct Hn]. split; eauto.
  - split; [|done]. split; [by intros [payload Hx]|by intros [x Hx]].
Qed.

Lemma read_is_200_iff_rows_complete_witness :
  let conn_query (text : string) (db : list (gmap string string)) :=
    (@inl _ exn db, db) in
  let rows : list (gmap string string) :=
    [ {[ "COMPANY_ID" := "C001"; "COMPANY_NAME" := "TechCorp" ]} ] in
  let out :=
    snd (Reads.serve (read_handler conn_query get_companies) (Pool 10 0) rows) in
  ((∃ payload, Reads.responses (Reads.trace out) = [(200, payload)]) ↔
   rows_complete (read_columns get_companies) rows) ∧
  (¬ rows_complete (read_columns get_companies) rows →
   Reads.responses (Reads.trace out) = [(500, Reads.error_ "Internal server error")]).
Proof.
  intros conn_query rows.
  apply (read_is_200_iff_rows_complete conn_query get_companies (Pool 10 0) rows rows rows).
  - unfold available; simpl; lia.
  - reflexivity.
Defined.
